(** * Fixed-step LMDE solvers of qiskit-dynamics

    A shallow embedding of [qiskit_dynamics/solvers/fixed_step_solvers.py],
    and of the real form of a complex system in [diffrax_solver.py],
    in exact real arithmetic: Python floats are read as real numbers, NumPy
    integer arrays as lists of [Z], arrays of times as lists of [R]. Where
    the code depends on the machine types the model follows them: the cast
    of a float to [int64], the float that the literal [1 + 1e-15] is, and
    the type, integer or float, of the times handed to [jax.lax.scan]. *)

From Stdlib Require Import String Bool ZArith Reals Lra Lia List.
Import ListNotations.
Local Open Scope R_scope.

(** ** Exceptions *)

Inductive exn : Type :=
| QiskitError (msg : string)
| ValueError (msg : string)
(* raised by JAX on a carry that changes type; its message prints the types
   at hand and is not modelled *)
| TypeError.

Definition result (A : Type) : Type := (exn + A)%type.

Definition ret {A : Type} (a : A) : result A := inr a.

Definition raise {A : Type} (e : exn) : result A := inl e.

Definition bind {A B : Type} (m : result A) (k : A -> result B) : result B :=
  match m with
  | inl e => inl e
  | inr a => k a
  end.

Notation "x <- m ;; k" := (bind m (fun x => k))
  (at level 61, m at next level, right associativity).

(** ** NumPy helpers on lists *)

(** [np.diff]. *)
Fixpoint diff (l : list R) : list R :=
  match l with
  | [] => []
  | a :: tl =>
      match tl with
      | [] => []
      | b :: _ => (b - a) :: diff tl
      end
  end.

(** [zip] of two and of three sequences: stops at the shortest. *)
Fixpoint zip {A B : Type} (l : list A) (l' : list B) : list (A * B) :=
  match l, l' with
  | a :: tl, b :: tl' => (a, b) :: zip tl tl'
  | _, _ => []
  end.

Definition zip3 {A B C : Type} (l : list A) (l' : list B) (l'' : list C)
  : list (A * B * C) :=
  zip (zip l l') l''.

(** ** The time grid: [get_fixed_step_sizes] *)

(** The least [int64], [-2^63]. *)
Definition int64_min : Z := (-9223372036854775808)%Z.

(** [x.astype(int)] for a float [x]: the cast to [int64] truncates towards
    zero; a float out of the range of [int64] (as an infinite one or one
    that is not a number) is cast to the least [int64]. *)
Definition astype_int (x : R) : Z :=
  if Rlt_dec (-9223372036854775809) x then
    if Rlt_dec x 9223372036854775808 then
      if Rlt_dec x 0 then Zceil x else Zfloor x
    else int64_min
  else int64_min.

(** [np.abs(delta_t / max_dt).astype(int)]. A division by [max_dt = 0]
    gives an infinite number, or none when [delta_t = 0] too, and the cast
    of either is the least [int64]. *)
Definition initial_n_steps (max_dt delta_t : R) : Z :=
  if Req_dec_T max_dt 0 then int64_min
  else astype_int (Rabs (delta_t / max_dt)).

(** The float [1 + 1e-15]: the floats about 1 are [2^-52] apart and
    [1e-15] is 4.5036 times [2^-52], so the sum rounds to
    [1 + 5 * 2^-52]. *)
Definition one_plus_1e_15 : R := 1 + 5 / 4503599627370496.

(** [np.abs(delta_t / n_steps) / max_dt > 1 + 1e-15], for [n_steps <> 0].
    With [max_dt = 0] the quotient is infinite and the comparison holds,
    unless [delta_t = 0]: then it is not a number and no comparison
    holds. *)
Definition exceeds_max_dt (max_dt delta_t : R) (n_steps : Z) : bool :=
  if Req_dec_T max_dt 0 then
    if Req_dec_T delta_t 0 then false else true
  else if Rgt_dec (Rabs (delta_t / IZR n_steps) / max_dt) one_plus_1e_15
       then true else false.

(** Body of the loop "correct potential rounding errors" for one interval.
    The sum [n_steps + 1] stays within [int64] ([n_steps_of_int64]
    below), so that it is the sum of integers. *)
Definition correct_n_steps (max_dt delta_t : R) (n_steps : Z) : Z :=
  if (n_steps =? 0)%Z then 1%Z
  else if exceeds_max_dt max_dt delta_t n_steps
       then (n_steps + 1)%Z
       else n_steps.

(** The quotient [|delta_t / max_dt|] is a number below [2^63], which the
    cast to [int] represents. *)
Definition fits_int64 (max_dt delta_t : R) : Prop :=
  max_dt <> 0 /\ Rabs (delta_t / max_dt) < 9223372036854775808.

Definition n_steps_of (max_dt delta_t : R) : Z :=
  correct_n_steps max_dt delta_t (initial_n_steps max_dt delta_t).

Section TimeGrid.

(** [merge_t_args] lives in [solver_utils], which is not part of the
    sources at hand: it is a parameter of the development. It may raise. *)
Variable merge_t_args : R * R -> option (list R) -> result (list R).

Definition get_fixed_step_sizes (t_span : R * R) (t_eval : option (list R))
    (max_dt : R) : result (list R * list R * list Z) :=
  t_list <- merge_t_args t_span t_eval ;;
  let delta_t_list := diff t_list in
  let n_steps_list := map (initial_n_steps max_dt) delta_t_list in
  let n_steps_list :=
    map (fun '(delta_t, n_steps) => correct_n_steps max_dt delta_t n_steps)
        (zip delta_t_list n_steps_list) in
  let h_list :=
    map (fun '(delta_t, n_steps) => delta_t / IZR n_steps)
        (zip delta_t_list n_steps_list) in
  ret (t_list, h_list, n_steps_list).

End TimeGrid.

(** ** Arrays

    The solvers are generic in the array backend. [Mat] is the type of the
    [n x n] arrays a generator returns; [Arr] is the type of the arrays [y]
    the solvers propagate, those for which [P @ y] is defined for an
    [n x n] array [P]: vectors of length [n] and matrices with [n] rows.
    Scalars are real (times, step sizes and the constants of the rules). *)

Class ArrayOps : Type := {
  Mat : Type;
  Arr : Type;
  (** the generator's dimension [n] *)
  dim : nat;
  (** [jnp.eye(d, dtype=complex)] as it enters a sum [ident + X] with [X]
      an [n x n] array: for [d = n] the identity matrix; for [d = 1] NumPy
      broadcasting turns the [1 x 1] array into the all-ones matrix *)
  jnp_eye : nat -> Mat;
  madd : Mat -> Mat -> Mat;
  msub : Mat -> Mat -> Mat;
  mscale : R -> Mat -> Mat;
  matmul : Mat -> Mat -> Mat;
  yadd : Arr -> Arr -> Arr;
  yscale : R -> Arr -> Arr;
  (** [P @ y] *)
  matmul_arr : Mat -> Arr -> Arr;
  (** an [n x n] array seen as a value of the trajectory *)
  of_mat : Mat -> Arr;
  (** [y.ndim == 2 and y.shape[0] == y.shape[1]], with the array as a matrix *)
  as_square : Arr -> option Mat;
  (** [y.shape[-1]] *)
  shape_last : Arr -> nat
}.

Declare Scope array_scope.
Delimit Scope array_scope with arr.
Infix "[+]" := madd (at level 50, left associativity) : array_scope.
Infix "[-]" := msub (at level 50, left associativity) : array_scope.
Infix "[*]" := mscale (at level 40, left associativity) : array_scope.
Infix "[@]" := matmul (at level 40, left associativity) : array_scope.
Infix "<+>" := yadd (at level 50, left associativity) : array_scope.
Infix "<*>" := yscale (at level 40, left associativity) : array_scope.
Infix "<@>" := matmul_arr (at level 40, left associativity) : array_scope.
Local Open Scope array_scope.

(** The identity matrix of the generator's dimension. *)
Definition eye `{ArrayOps} : Mat := jnp_eye dim.

(** [X / c] for an array [X] and a scalar [c]. *)
Definition mdiv `{ArrayOps} (X : Mat) (c : R) : Mat := (/ c) [*] X.
Infix "[/]" := mdiv (at level 40, left associativity) : array_scope.

(** The laws of exact matrix arithmetic the proofs rely on. *)
Class ArrayLaws `{ArrayOps} : Prop := {
  matmul_assoc : forall A B C : Mat, (A [@] B) [@] C = A [@] (B [@] C);
  matmul_eye_l : forall A : Mat, eye [@] A = A;
  matmul_eye_r : forall A : Mat, A [@] eye = A;
  mscale_mscale : forall (a b : R) (A : Mat), a [*] (b [*] A) = (a * b) [*] A;
  matmul_arr_matmul : forall (A B : Mat) (y : Arr), (A [@] B) <@> y = A <@> (B <@> y);
  matmul_arr_madd : forall (A B : Mat) (y : Arr), (A [+] B) <@> y = (A <@> y) <+> (B <@> y);
  matmul_arr_mscale : forall (a : R) (A : Mat) (y : Arr), (a [*] A) <@> y = a <*> (A <@> y);
  matmul_arr_eye : forall y : Arr, eye <@> y = y;
  matmul_arr_of_mat : forall A B : Mat, A <@> of_mat B = of_mat (A [@] B);
  as_square_of_mat : forall (y : Arr) (m : Mat), as_square y = Some m -> of_mat m = y
}.

Record OdeResult `{ArrayOps} : Type := mkOdeResult {
  t : list R;
  y : list Arr
}.

(** ** NumPy and JAX primitives *)

(** [range(n)] and [np.arange(n)] for an integer [n]: empty when [n <= 0]. *)
Definition arange (n : Z) : list Z := map Z.of_nat (seq 0 (Z.to_nat n)).

(** [a.max()] of an integer array: raises on an empty array. *)
Definition array_max (a : list Z) : result Z :=
  match a with
  | [] => raise (ValueError
            "zero-size array to reduction operation maximum which has no identity")
  | n :: tl => ret (fold_left Z.max tl n)
  end.

(** [np.ones(n)] for an integer [n]: raises on a negative [n]. *)
Definition np_ones (n : Z) : result (list R) :=
  if (n <? 0)%Z then raise (ValueError "negative dimensions are not allowed")
  else ret (map (fun _ => 1) (arange n)).

(** The type of the entries of an array of times. The model keeps the
    times as real numbers and their type beside them, where the code
    depends on it: [np.array] of Python ints alone is an array of
    integers. *)
Inductive dtype : Type :=
| int_dtype
| float_dtype.

(** [jax.lax.scan]: thread a carry through [xs], collecting the outputs.
    JAX requires the carry to keep its type; [scan] is the fold, and the
    requirement is [check_carry_type] at the place of the call. *)
Fixpoint scan {C X Y : Type} (f : C -> X -> C * Y) (init : C) (xs : list X)
  : C * list Y :=
  match xs with
  | [] => (init, [])
  | x :: xs' =>
      let '(c, out) := f init x in
      let '(c', outs) := scan f c xs' in
      (c', out :: outs)
  end.

(** [jax.lax.cond]. *)
Definition cond {A B : Type} (pred : bool) (true_fun false_fun : A -> B)
    (operand : A) : B :=
  if pred then true_fun operand else false_fun operand.

(** [jax.lax.associative_scan fn elems], as JAX computes it: combine the
    adjacent pairs, scan the half-length result recursively (this gives the
    outputs of odd index), combine them with the elements of even index
    (this gives the outputs of even index), and interleave. *)

(** [fn(elems[0:-1:2], elems[1::2])]. *)
Fixpoint combine_pairs {A : Type} (fn : A -> A -> A) (elems : list A) : list A :=
  match elems with
  | a :: b :: tl => fn a b :: combine_pairs fn tl
  | _ => []
  end.

(** [elems[0::2]]. *)
Fixpoint stride2 {A : Type} (elems : list A) : list A :=
  match elems with
  | [] => []
  | a :: tl =>
      a :: match tl with
           | [] => []
           | _ :: tl' => stride2 tl'
           end
  end.

(** [a[0], b[0], a[1], b[1], ...], for [b] as long as [a] or one shorter. *)
Fixpoint interleave {A : Type} (a b : list A) : list A :=
  match a with
  | [] => []
  | x :: a' =>
      x :: match b with
           | [] => []
           | x' :: b' => x' :: interleave a' b'
           end
  end.

(** The recursion [_scan]; [depth] bounds the number of nested calls, each
    of which halves the number of elements. *)
Fixpoint associative_scan_rec {A : Type} (depth : nat) (fn : A -> A -> A)
    (elems : list A) : list A :=
  match depth with
  | O => elems
  | S depth' =>
      match elems with
      | [] => elems
      | first :: rest =>
          match rest with
          | [] => elems
          | _ :: _ =>
              let reduced_elems := combine_pairs fn elems in
              let odd_elems := associative_scan_rec depth' fn reduced_elems in
              let even_elems :=
                map (fun '(a, b) => fn a b)
                    (zip odd_elems (stride2 (skipn 2 elems))) in
              let even_elems := first :: even_elems in
              interleave even_elems odd_elems
          end
      end
  end.

Definition associative_scan {A : Type} (fn : A -> A -> A) (elems : list A) : list A :=
  associative_scan_rec (length elems) fn elems.

(** The inclusive prefix scan, from left to right: [r_0 = x_0],
    [r_(i+1) = fn r_i x_(i+1)]. *)
Fixpoint scan_from {A : Type} (fn : A -> A -> A) (acc : A) (l : list A) : list A :=
  match l with
  | [] => []
  | x :: tl => fn acc x :: scan_from fn (fn acc x) tl
  end.

Definition prefix_scan {A : Type} (fn : A -> A -> A) (elems : list A) : list A :=
  match elems with
  | [] => []
  | x :: tl => x :: scan_from fn x tl
  end.

(** Indexing a JAX array by an integer: a negative index counts from the
    end, an index out of bounds is clamped. *)
Definition jnp_index {A : Type} (default : A) (a : list A) (i : Z) : A :=
  let len := Z.of_nat (length a) in
  let i := if (i <? 0)%Z then (i + len)%Z else i in
  let i := Z.max 0 (Z.min i (len - 1)) in
  nth (Z.to_nat i) a default.

(** ** Step rules *)

Section StepRules.

Context `{ArrayOps}.

Definition div6 : R := 1.0 / 6.

(** [take_step] of [RK4_solver] (and of [jax_RK4_solver], which has the
    same text). *)
Definition RK4_take_step (rhs_func : R -> Arr -> Arr) (t : R) (y : Arr) (h : R)
  : Arr :=
  let h2 := 0.5 * h in
  let t_plus_h2 := t + h2 in
  let k1 := rhs_func t y in
  let k2 := rhs_func t_plus_h2 (y <+> h2 <*> k1) in
  let k3 := rhs_func t_plus_h2 (y <+> h2 <*> k2) in
  let k4 := rhs_func (t + h) (y <+> h <*> k3) in
  y <+> (div6 * h) <*> (k1 <+> 2 <*> k2 <+> 2 <*> k3 <+> k4).

(** [take_step] of [jax_RK4_parallel_solver]; [ident] is the variable of
    the enclosing function. *)
Definition RK4_parallel_take_step (ident : Mat) (generator : R -> Mat) (t h : R)
  : Mat :=
  let h2 := 0.5 * h in
  let gh2 := generator (t + h2) in
  let k1 := generator t in
  let k2 := gh2 [@] (ident [+] h2 [*] k1) in
  let k3 := gh2 [@] (ident [+] h2 [*] k2) in
  let k4 := generator (t + h) [@] (ident [+] h [*] k3) in
  ident [+] (div6 * h) [*] (k1 [+] 2 [*] k2 [+] 2 [*] k3 [+] k4).

Definition matrix_commutator (m1 m2 : Mat) : Mat :=
  m1 [@] m2 [-] m2 [@] m1.

(** Signatures of the two kinds of step function. *)
Definition propagator_fun : Type := (R -> Mat) -> R -> R -> Mat.
Definition take_step_fun : Type := (R -> Mat) -> R -> Arr -> R -> Arr.

(** [propagator] of the branch [magnus_order == 1]; the product of an
    array and a scalar is written with the scalar first. *)
Definition magnus1_propagator (expm_func : Mat -> Mat) : propagator_fun :=
  fun generator t0 h => expm_func (h [*] generator (t0 + (h / 2))).

(** [propagator] of the branch [magnus_order == 2]. *)
Definition magnus2_propagator (expm_func : Mat -> Mat) : propagator_fun :=
  let c1 := 0.5 - sqrt 3 / 6 in
  let c2 := 0.5 + sqrt 3 / 6 in
  let p2 := sqrt 3 / 12 in
  fun generator t0 h =>
    let g1 := generator (t0 + c1 * h) in
    let g2 := generator (t0 + c2 * h) in
    let terms :=
      h [*] (g1 [+] g2) [/] 2 [+] (p2 * h ^ 2) [*] matrix_commutator g2 g1 in
    expm_func terms.

(** [propagator] of the branch [magnus_order == 3]. *)
Definition magnus3_propagator (expm_func : Mat -> Mat) : propagator_fun :=
  let d1 := 0.5 - sqrt 15 / 10 in
  let d2 := 0.5 in
  let d3 := 0.5 + sqrt 15 / 10 in
  let c0 := sqrt 15 / 3 in
  let c1 := 10.0 / 3 in
  fun generator t0 h =>
    let g1 := generator (t0 + d1 * h) in
    let g2 := generator (t0 + d2 * h) in
    let g3 := generator (t0 + d3 * h) in
    let a1 := h [*] g2 in
    let a2 := (c0 * h) [*] (g3 [-] g1) in
    let a3 := (c1 * h) [*] (g3 [-] 2 [*] g2 [+] g1) in
    let comm1 := matrix_commutator a1 a2 in
    let comm2 := matrix_commutator (2 [*] a3 [+] comm1) a1 [/] 60 in
    let terms :=
      a1 [+] (a3 [/] 12)
         [+] matrix_commutator ((-20) [*] a1 [-] a3 [+] comm1) (a2 [+] comm2) [/] 240 in
    expm_func terms.

(** What [get_exponential_take_step] returns: a function
    [f(generator, t0, h)] when [just_propagator], else a function
    [f(generator, t0, y, h)]. *)
Definition step_type (just_propagator : bool) : Type :=
  if just_propagator then propagator_fun else take_step_fun.

Definition unsupported_order : exn :=
  QiskitError "Only magnus_order 1, 2, and 3 are supported.".

Definition get_exponential_take_step (magnus_order : Z) (expm_func : Mat -> Mat)
    (just_propagator : bool) : result (step_type just_propagator) :=
  propagator <-
    (if (magnus_order =? 1)%Z then ret (magnus1_propagator expm_func)
     else if (magnus_order =? 2)%Z then ret (magnus2_propagator expm_func)
     else if (magnus_order =? 3)%Z then ret (magnus3_propagator expm_func)
     else raise unsupported_order) ;;
  match just_propagator return result (step_type just_propagator) with
  | true => ret propagator
  | false => ret (fun generator t0 y h => propagator generator t0 h <@> y)
  end.

End StepRules.

(** ** Solver templates *)

Section Templates.

Context `{ArrayOps}.

(** [merge_t_args] and [trim_t_results] live in [solver_utils], which is
    not part of the sources at hand: they are parameters. Both may raise. *)
Variable merge_t_args : R * R -> option (list R) -> result (list R).
Variable trim_t_results : OdeResult -> option (list R) -> result OdeResult.

(** The inner loop [for _ in range(n_steps)] of
    [fixed_step_solver_template]. *)
Fixpoint take_steps {F : Type} (take_step : F -> R -> Arr -> R -> Arr)
    (rhs_func : F) (n_steps : nat) (inner_t : R) (y : Arr) (h : R) : Arr :=
  match n_steps with
  | O => y
  | S n => take_steps take_step rhs_func n (inner_t + h)
             (take_step rhs_func inner_t y h) h
  end.

(** The loop over [zip(t_list, h_list, n_steps_list)]: [ys] grows by one
    value per interval, starting from its last value [ys[-1]]. *)
Definition integrate_intervals {F : Type} (take_step : F -> R -> Arr -> R -> Arr)
    (rhs_func : F) (y0 : Arr) (t_list h_list : list R) (n_steps_list : list Z)
  : list Arr :=
  fold_left
    (fun ys '(current_t, h, n_steps) =>
       let y := last ys y0 in
       let y := take_steps take_step rhs_func (Z.to_nat n_steps) current_t y h in
       ys ++ [y])
    (zip3 t_list h_list n_steps_list)
    [y0].

Definition fixed_step_solver_template {F : Type}
    (take_step : F -> R -> Arr -> R -> Arr) (rhs_func : F) (t_span : R * R)
    (y0 : Arr) (max_dt : R) (t_eval : option (list R)) : result OdeResult :=
  grid <- get_fixed_step_sizes merge_t_args t_span t_eval max_dt ;;
  let '(t_list, h_list, n_steps_list) := grid in
  let ys := integrate_intervals take_step rhs_func y0 t_list h_list n_steps_list in
  let results := mkOdeResult _ t_list ys in
  trim_t_results results t_eval.

(** [scan_take_step] of [fixed_step_solver_template_jax]. *)
Definition scan_take_step {F : Type} (take_step : F -> R -> Arr -> R -> Arr)
    (rhs_func : F) (h : R) (n_steps : Z) (carry : R * Arr) (step : Z)
  : (R * Arr) * unit :=
  let '(t, y) := carry in
  let y := cond (step <? n_steps)%Z (fun y => take_step rhs_func t y h)
                (fun y => y) y in
  let t := t + h in
  ((t, y), tt).

(** [scan_interval_integrate] of [fixed_step_solver_template_jax]. *)
Definition scan_interval_integrate {F : Type}
    (take_step : F -> R -> Arr -> R -> Arr) (rhs_func : F) (max_steps : Z)
    (carry : Arr) (x : R * R * Z) : Arr * Arr :=
  let '(current_t, h, n_steps) := x in
  let current_y := carry in
  let next_y :=
    snd (fst (scan (scan_take_step take_step rhs_func h n_steps)
                   (current_t, current_y) (arange max_steps))) in
  (next_y, next_y).

(** The carry of [scan_take_step] is [(t, y)], and [t = t + h] is a float,
    [h] being a quotient: when the times of [t_list] are integers the
    carry changes type and [jax.lax.scan] raises, before any step. The
    arrays [y] of the model are complex, as the values of [take_step]
    are, and keep their type. *)
Definition check_carry_type (t_dtype : dtype) : result unit :=
  match t_dtype with
  | float_dtype => ret tt
  | int_dtype => raise TypeError
  end.

(** [t_dtype] is the type of the times of [t_list], that is of [t_span]
    and [t_eval] as they are passed. In [xs] the three arrays have the
    same length (the number of intervals), so the triples of [xs] are
    those of [zip3]. *)
Definition fixed_step_solver_template_jax {F : Type}
    (take_step : F -> R -> Arr -> R -> Arr) (rhs_func : F) (t_span : R * R)
    (t_dtype : dtype) (y0 : Arr) (max_dt : R) (t_eval : option (list R))
  : result OdeResult :=
  grid <- get_fixed_step_sizes merge_t_args t_span t_eval max_dt ;;
  let '(t_list, h_list, n_steps_list) := grid in
  max_steps <- array_max n_steps_list ;;
  _ <- check_carry_type t_dtype ;;
  let ys :=
    snd (scan (scan_interval_integrate take_step rhs_func max_steps) y0
              (zip3 (removelast t_list) h_list n_steps_list)) in
  let ys := y0 :: ys in
  let results := mkOdeResult _ t_list ys in
  trim_t_results results t_eval.

(** The loop "set up time information for computing propagators in
    parallel" of [fixed_step_lmde_solver_parallel_template_jax]: the state
    is [(all_times, all_h, t_list_locations)], or the error [np.ones]
    raised on the way. *)
Definition time_information (t_list h_list : list R) (n_steps_list : list Z)
  : result (list R * list R * list Z) :=
  fold_left
    (fun state '(t, h, n_steps) =>
       st <- state ;;
       let '(all_times, all_h, t_list_locations) := st in
       let all_times :=
         all_times ++ map (fun k => t + h * IZR k) (arange n_steps) in
       ones <- np_ones n_steps ;;
       let all_h := all_h ++ map (fun one => h * one) ones in
       ret (all_times, all_h,
            t_list_locations ++ [(last t_list_locations 0 + n_steps)%Z]))
    (zip3 t_list h_list n_steps_list)
    (ret ([], [], [0%Z])).

Definition reverse_mul (A B : Mat) : Mat := B [@] A.

(** Lines "multiply propagators together in parallel" of the parallel
    template: from [y0], the step propagators and the locations of the
    breakpoints to the trajectory [ys]. *)
Definition compose_propagators (y0 : Arr) (step_propagators : list Mat)
    (t_list_locations : list Z) : list Arr :=
  match as_square y0 with
  | Some y0_mat =>
      let intermediate_props :=
        associative_scan reverse_mul (y0_mat :: step_propagators) in
      map (fun i => of_mat (jnp_index eye intermediate_props i)) t_list_locations
  | None =>
      let intermediate_props := associative_scan reverse_mul step_propagators in
      let intermediate_y :=
        map (fun i => jnp_index eye intermediate_props i <@> y0)
            (map (fun i => (i - 1)%Z) (tl t_list_locations)) in
      y0 :: intermediate_y
  end.

(** [vmap(lambda t, h: take_step(generator, t, h))(all_times, all_h)].
    [intervals] are the triples the loop above went through: when there is
    none, [all_times] and [all_h] are still the empty Python lists they
    were initialised to, which hold no array to map over, and [vmap]
    raises. *)
Definition vmap_take_step (take_step : (R -> Mat) -> R -> R -> Mat)
    (generator : R -> Mat) (intervals : list (R * R * Z))
    (all_times all_h : list R) : result (list Mat) :=
  match intervals with
  | [] => raise (ValueError
            "vmap wrapped function must be passed at least one argument containing an array, got empty *args=([], []) and **kwargs={}")
  | _ :: _ => ret (map (fun '(t, h) => take_step generator t h) (zip all_times all_h))
  end.

(** The warning raised on a CPU backend has no effect on the result. *)
Definition fixed_step_lmde_solver_parallel_template_jax
    (take_step : (R -> Mat) -> R -> R -> Mat) (generator : R -> Mat)
    (t_span : R * R) (y0 : Arr) (max_dt : R) (t_eval : option (list R))
  : result OdeResult :=
  grid <- get_fixed_step_sizes merge_t_args t_span t_eval max_dt ;;
  let '(t_list, h_list, n_steps_list) := grid in
  info <- time_information t_list h_list n_steps_list ;;
  let '(all_times, all_h, t_list_locations) := info in
  step_propagators <-
    vmap_take_step take_step generator (zip3 t_list h_list n_steps_list)
      all_times all_h ;;
  let ys := compose_propagators y0 step_propagators t_list_locations in
  let results := mkOdeResult _ t_list ys in
  trim_t_results results t_eval.

(** ** Solvers *)

Definition RK4_solver (rhs : R -> Arr -> Arr) (t_span : R * R) (y0 : Arr)
    (max_dt : R) (t_eval : option (list R)) : result OdeResult :=
  fixed_step_solver_template RK4_take_step rhs t_span y0 max_dt t_eval.

Definition jax_RK4_solver (rhs : R -> Arr -> Arr) (t_span : R * R)
    (t_dtype : dtype) (y0 : Arr) (max_dt : R) (t_eval : option (list R))
  : result OdeResult :=
  fixed_step_solver_template_jax RK4_take_step rhs t_span t_dtype y0 max_dt t_eval.

Definition jax_RK4_parallel_solver (generator : R -> Mat) (t_span : R * R)
    (y0 : Arr) (max_dt : R) (t_eval : option (list R)) : result OdeResult :=
  let dim := shape_last y0 in
  let ident := jnp_eye dim in
  fixed_step_lmde_solver_parallel_template_jax
    (RK4_parallel_take_step ident) generator t_span y0 max_dt t_eval.

(** [expm_func] is [scipy.linalg.expm] in [scipy_expm_solver] and
    [jax.scipy.linalg.expm] in the JAX solvers: a parameter here. *)
Variable expm jexpm : Mat -> Mat.

Definition scipy_expm_solver (generator : R -> Mat) (t_span : R * R) (y0 : Arr)
    (max_dt : R) (t_eval : option (list R)) (magnus_order : Z)
  : result OdeResult :=
  take_step <- get_exponential_take_step magnus_order expm false ;;
  fixed_step_solver_template take_step generator t_span y0 max_dt t_eval.

Definition jax_expm_solver (generator : R -> Mat) (t_span : R * R)
    (t_dtype : dtype) (y0 : Arr) (max_dt : R) (t_eval : option (list R))
    (magnus_order : Z) : result OdeResult :=
  take_step <- get_exponential_take_step magnus_order jexpm false ;;
  fixed_step_solver_template_jax take_step generator t_span t_dtype y0 max_dt t_eval.

Definition jax_expm_parallel_solver (generator : R -> Mat) (t_span : R * R)
    (y0 : Arr) (max_dt : R) (t_eval : option (list R)) (magnus_order : Z)
  : result OdeResult :=
  take_step <- get_exponential_take_step magnus_order jexpm true ;;
  fixed_step_lmde_solver_parallel_template_jax
    take_step generator t_span y0 max_dt t_eval.

End Templates.

(** ** The Lanczos solvers *)

Section Lanczos.

Context `{ArrayOps}.

Variable merge_t_args : R * R -> option (list R) -> result (list R).
Variable trim_t_results : OdeResult -> option (list R) -> result OdeResult.

(** [lanczos_expm] and [jax_lanczos_expm] live in [lanczos], which is not
    part of the sources at hand: [lanczos_expm(A, y, k_dim, h)] is a
    parameter. *)
Variable lanczos_expm : Mat -> Arr -> Z -> R -> Arr.
Variable jax_lanczos_expm : Mat -> Arr -> Z -> R -> Arr.

(** [take_step] of [lanczos_diag_solver]. *)
Definition lanczos_take_step (k_dim : Z) : take_step_fun :=
  fun generator t0 y h =>
    let eval_time := t0 + (h / 2) in
    lanczos_expm (generator eval_time) y k_dim h.

(** [take_step] of [jax_lanczos_diag_solver]. *)
Definition jax_lanczos_take_step (k_dim : Z) : take_step_fun :=
  fun generator t0 y h =>
    let eval_time := t0 + (h / 2) in
    jax_lanczos_expm (generator eval_time) y k_dim h.

Definition lanczos_diag_solver (generator : R -> Mat) (t_span : R * R) (y0 : Arr)
    (max_dt : R) (k_dim : Z) (t_eval : option (list R)) : result OdeResult :=
  fixed_step_solver_template merge_t_args trim_t_results
    (lanczos_take_step k_dim) generator t_span y0 max_dt t_eval.

(** The arrays of the model are complex: [unp.asarray(y0, dtype=complex)]
    leaves [y0] as it is. *)
Definition jax_lanczos_diag_solver (generator : R -> Mat) (t_span : R * R)
    (t_dtype : dtype) (y0 : Arr) (max_dt : R) (k_dim : Z)
    (t_eval : option (list R)) : result OdeResult :=
  fixed_step_solver_template_jax merge_t_args trim_t_results
    (jax_lanczos_take_step k_dim) generator t_span t_dtype y0 max_dt t_eval.

End Lanczos.

(** ** Closed forms of the parallel template *)

Section ClosedForms.

Context `{ArrayOps}.

(** The pairs (time, step size) of the steps of one interval, in order. *)
Definition interval_steps (x : R * R * Z) : list (R * R) :=
  let '(t, h, n_steps) := x in
  map (fun k => (t + h * IZR k, h * 1)) (arange n_steps).

(** The steps of all the intervals. *)
Definition all_steps (xs : list (R * R * Z)) : list (R * R) :=
  concat (map interval_steps xs).

(** The running sums [base + n_0], [base + n_0 + n_1], ... *)
Fixpoint locations_from (base : Z) (n_steps_list : list Z) : list Z :=
  match n_steps_list with
  | [] => []
  | n_steps :: tl => (base + n_steps)%Z :: locations_from (base + n_steps) tl
  end.

(** The product [P_k @ ... @ P_1] of the first [k] step propagators. *)
Definition cumulative_propagator (props : list Mat) (k : nat) : Mat :=
  fold_left reverse_mul (firstn k props) eye.

(** One propagator applied to a value of the trajectory. *)
Definition apply_propagator (y : Arr) (P : Mat) : Arr := P <@> y.

(** The state-space step of a rule given by its propagator, as
    [get_exponential_take_step] builds it. *)
Definition take_step_of (propagator : (R -> Mat) -> R -> R -> Mat)
  : (R -> Mat) -> R -> Arr -> R -> Arr :=
  fun generator t0 y h => propagator generator t0 h <@> y.

(** The propagators of the steps, from their times and sizes: the [vmap]
    of the parallel template. *)
Definition propagators_of (propagator : (R -> Mat) -> R -> R -> Mat)
    (generator : R -> Mat) (steps : list (R * R)) : list Mat :=
  map (fun '(t, h) => propagator generator t h) steps.

End ClosedForms.

(** ** The Magnus rules in the words of the specification *)

Section MagnusSpec.

Context `{ArrayOps}.

(** [[A, B] = AB - BA]. *)
Definition spec_commutator (A B : Mat) : Mat := A [@] B [-] B [@] A.

(** "two Gauss-quadrature node samples at [t + (1/2 -+ sqrt 3 / 6) h];
    propagator [= exp(h/2 (G1 + G2) + (sqrt 3 / 12) h^2 [G2, G1])]". *)
Definition spec_magnus2 (exp_m : Mat -> Mat) (G : R -> Mat) (t0 h : R) : Mat :=
  let G1 := G (t0 + (1 / 2 - sqrt 3 / 6) * h) in
  let G2 := G (t0 + (1 / 2 + sqrt 3 / 6) * h) in
  exp_m ((h / 2) [*] (G1 [+] G2) [+] (sqrt 3 / 12 * h ^ 2) [*] spec_commutator G2 G1).

(** "three nodes at [t + (1/2, 1/2 +- sqrt 15 / 10) h]", [a1 = h G(t0 + h/2)],
    [a2 = (sqrt 15 / 3) h (G3 - G1)], [a3 = (10/3) h (G3 - 2 G2 + G1)],
    "[terms = a1 + a3/12 + [-20 a1 - a3 + [a1, a2], a2 + [2 a3 + [a1, a2], a1]/60] / 240];
    propagator [= exp(terms)]". *)
Definition spec_magnus3 (exp_m : Mat -> Mat) (G : R -> Mat) (t0 h : R) : Mat :=
  let G1 := G (t0 + (1 / 2 - sqrt 15 / 10) * h) in
  let G2 := G (t0 + h / 2) in
  let G3 := G (t0 + (1 / 2 + sqrt 15 / 10) * h) in
  let a1 := h [*] G2 in
  let a2 := (sqrt 15 / 3 * h) [*] (G3 [-] G1) in
  let a3 := (10 / 3 * h) [*] (G3 [-] 2 [*] G2 [+] G1) in
  let terms :=
    a1 [+] a3 [/] 12
       [+] spec_commutator ((-20) [*] a1 [-] a3 [+] spec_commutator a1 a2)
             (a2 [+] spec_commutator (2 [*] a3 [+] spec_commutator a1 a2) a1 [/] 60)
           [/] 240 in
  exp_m terms.

End MagnusSpec.

(** ** The step-count rule in the words of the specification

    "required step count [n_i = ceil(|delta| / max_dt)], floored to at least
    1 [...] if the resulting per-step magnitude [|delta|/n_i] still exceeds
    [max_dt] by more than a relative tolerance (1e-15), increment [n_i] by
    one". *)
Definition spec_step_count (max_dt delta : R) : Z :=
  let n := Z.max (Zceil (Rabs delta / max_dt)) 1 in
  if Rgt_dec (Rabs delta / IZR n) (max_dt * (1 + 1e-15)) then (n + 1)%Z else n.

(** The rule the code follows: the floor of [|delta| / max_dt] is kept when
    it is at least 1 and the step it gives exceeds [max_dt] by a relative
    amount of at most [5 * 2^-52], the float [1 + 1e-15] being
    [1 + 5 * 2^-52]; else the count is the ceiling, at least 1. *)
Definition step_count_rule (max_dt delta : R) (n : Z) : Prop :=
  let x := Rabs delta / max_dt in
  let k := Zfloor x in
  ((1 <= k)%Z /\ x <= IZR k * (1 + 5 / 4503599627370496) -> n = k) /\
  (~ ((1 <= k)%Z /\ x <= IZR k * (1 + 5 / 4503599627370496)) ->
   n = Z.max (Zceil x) 1).

(** ** A concrete backend: complex arrays for generators of dimension 2

    Complex numbers are pairs of reals; the arrays are the [2 x 2] matrices
    and the three shapes of [y] a [2 x 2] matrix multiplies: [(2,)],
    [(2, 2)] and [(2, 1)]. It is the backend of the examples. *)

Module Complex2.

Record C : Type := mkC { re : R; im : R }.

Definition Cadd (a b : C) : C := mkC (re a + re b) (im a + im b).
Definition Csub (a b : C) : C := mkC (re a - re b) (im a - im b).
Definition Cmul (a b : C) : C :=
  mkC (re a * re b - im a * im b) (re a * im b + im a * re b).
Definition Cscale (r : R) (a : C) : C := mkC (r * re a) (r * im a).
Definition C0 : C := mkC 0 0.
Definition C1 : C := mkC 1 0.

(** [exp (x + i y) = exp x * (cos y + i sin y)]. *)
Definition Cexp (a : C) : C := mkC (exp (re a) * cos (im a)) (exp (re a) * sin (im a)).

Record M2 : Type := mkM2 { m00 : C; m01 : C; m10 : C; m11 : C }.
Record V2 : Type := mkV2 { v0 : C; v1 : C }.

Definition M2add (a b : M2) : M2 :=
  mkM2 (Cadd (m00 a) (m00 b)) (Cadd (m01 a) (m01 b))
       (Cadd (m10 a) (m10 b)) (Cadd (m11 a) (m11 b)).
Definition M2sub (a b : M2) : M2 :=
  mkM2 (Csub (m00 a) (m00 b)) (Csub (m01 a) (m01 b))
       (Csub (m10 a) (m10 b)) (Csub (m11 a) (m11 b)).
Definition M2scale (r : R) (a : M2) : M2 :=
  mkM2 (Cscale r (m00 a)) (Cscale r (m01 a)) (Cscale r (m10 a)) (Cscale r (m11 a)).
Definition M2mul (a b : M2) : M2 :=
  mkM2 (Cadd (Cmul (m00 a) (m00 b)) (Cmul (m01 a) (m10 b)))
       (Cadd (Cmul (m00 a) (m01 b)) (Cmul (m01 a) (m11 b)))
       (Cadd (Cmul (m10 a) (m00 b)) (Cmul (m11 a) (m10 b)))
       (Cadd (Cmul (m10 a) (m01 b)) (Cmul (m11 a) (m11 b))).
Definition M2apply (a : M2) (v : V2) : V2 :=
  mkV2 (Cadd (Cmul (m00 a) (v0 v)) (Cmul (m01 a) (v1 v)))
       (Cadd (Cmul (m10 a) (v0 v)) (Cmul (m11 a) (v1 v))).
Definition M2eye : M2 := mkM2 C1 C0 C0 C1.
Definition M2ones : M2 := mkM2 C1 C1 C1 C1.
Definition M2zero : M2 := mkM2 C0 C0 C0 C0.

Definition V2add (a b : V2) : V2 := mkV2 (Cadd (v0 a) (v0 b)) (Cadd (v1 a) (v1 b)).
Definition V2scale (r : R) (a : V2) : V2 := mkV2 (Cscale r (v0 a)) (Cscale r (v1 a)).

(** An array [y] by its shape. *)
Inductive A2 : Type :=
| Vector (v : V2)        (* shape (2,) *)
| Square (m : M2)        (* shape (2, 2) *)
| Column (v : V2).       (* shape (2, 1) *)

(** [(2,)] and [(2, 1)] arrays broadcast to [(2, 2)]: along the rows for
    a vector, along the columns for a column. *)
Definition rows (v : V2) : M2 := mkM2 (v0 v) (v1 v) (v0 v) (v1 v).
Definition cols (v : V2) : M2 := mkM2 (v0 v) (v0 v) (v1 v) (v1 v).

(** The sum of two arrays, with NumPy broadcasting. *)
Definition A2add (a b : A2) : A2 :=
  match a, b with
  | Vector u, Vector v => Vector (V2add u v)
  | Column u, Column v => Column (V2add u v)
  | Square m, Square m' => Square (M2add m m')
  | Vector u, Square m => Square (M2add (rows u) m)
  | Square m, Vector u => Square (M2add m (rows u))
  | Column u, Square m => Square (M2add (cols u) m)
  | Square m, Column u => Square (M2add m (cols u))
  | Vector u, Column v => Square (M2add (rows u) (cols v))
  | Column u, Vector v => Square (M2add (cols u) (rows v))
  end.

Definition A2scale (r : R) (a : A2) : A2 :=
  match a with
  | Vector v => Vector (V2scale r v)
  | Square m => Square (M2scale r m)
  | Column v => Column (V2scale r v)
  end.

(** [P @ y]. *)
Definition A2matmul (P : M2) (a : A2) : A2 :=
  match a with
  | Vector v => Vector (M2apply P v)
  | Square m => Square (M2mul P m)
  | Column v => Column (M2apply P v)
  end.

Definition A2as_square (a : A2) : option M2 :=
  match a with
  | Square m => Some m
  | _ => None
  end.

Definition A2shape_last (a : A2) : nat :=
  match a with
  | Vector _ => 2
  | Square _ => 2
  | Column _ => 1
  end.

(** [jnp.eye(d)] in a sum with a [2 x 2] array: the identity for [d = 2];
    for [d = 1] the array [[1]], which broadcasts to the all-ones matrix.
    The arrays of this backend have no other last axis. *)
Definition M2jnp_eye (d : nat) : M2 :=
  if (d =? 2)%nat then M2eye else M2ones.

#[export] Instance ops : ArrayOps := {|
  Mat := M2;
  Arr := A2;
  dim := 2;
  jnp_eye := M2jnp_eye;
  madd := M2add;
  msub := M2sub;
  mscale := M2scale;
  matmul := M2mul;
  yadd := A2add;
  yscale := A2scale;
  matmul_arr := A2matmul;
  of_mat := Square;
  as_square := A2as_square;
  shape_last := A2shape_last
|}.

(** The matrix exponential of a diagonal matrix (the off-diagonal
    entries of the argument are not read). *)
Definition expm_diag (a : @Mat ops) : @Mat ops := mkM2 (Cexp (m00 a)) C0 C0 (Cexp (m11 a)).

(** The matrix [-i * pi * Z], with [Z] the Pauli matrix [diag(1, -1)]. *)
Definition minus_i_pi_Z : @Mat ops :=
  mkM2 (mkC 0 (- PI)) C0 C0 (mkC 0 PI).

(** The zero generator. *)
Definition zero_generator (t : R) : @Mat ops := M2zero.

(** A generator that does not commute with itself at different times. *)
Definition ramp_generator (t : R) : @Mat ops := mkM2 C0 (mkC t 0) (mkC 0 1) C0.

(** A truncated exponential, [I + A]. *)
Definition expm_order1 (a : @Mat ops) : @Mat ops := M2add M2eye a.

(** The vector [[1, 0]] and the column [[[1], [0]]]. *)
Definition e0 : V2 := mkV2 C1 C0.
Definition vector_e0 : @Arr ops := Vector e0.
Definition column_e0 : @Arr ops := Column e0.

(** [trim_t_results] of a call without [t_eval]: the results as they are. *)
Definition trim_nothing (results : OdeResult) (t_eval : option (list R))
  : result OdeResult :=
  ret results.

End Complex2.

(** ** The real form of a complex system: [diffrax_solver.py]

    [diffrax_solver] hands a complex system to a real solver through
    [c2r], [r2c] and [real_rhs]. An array with at least one axis is the
    list of its entries along axis 0; [X] is the type of the entries of a
    real array (a real number for an array of one axis, a real array for
    more), and a complex array has for entries the pairs of a real and an
    imaginary part. *)

Section Diffrax.

Variable X : Type.

(** [jnp.real] and [jnp.imag]. *)
Definition jnp_real (arr : list (X * X)) : list X := map fst arr.
Definition jnp_imag (arr : list (X * X)) : list X := map snd arr.

Definition c2r (arr : list (X * X)) : list X :=
  jnp_real arr ++ jnp_imag arr.

(** [a + 1j * b] for two real arrays whose shapes agree after axis 0:
    entry by entry when the lengths are the same; an array of length 1 is
    broadcast along the other one; other lengths do not broadcast and the
    sum raises. *)
Definition add_1j_mul (a b : list X) : option (list (X * X)) :=
  if (length a =? length b)%nat then Some (zip a b)
  else match a, b with
       | [x], _ => Some (map (fun y => (x, y)) b)
       | _, [y] => Some (map (fun x => (x, y)) a)
       | _, _ => None
       end.

Definition r2c (arr : list X) : option (list (X * X)) :=
  let size := (length arr / 2)%nat in
  add_1j_mul (firstn size arr) (skipn size arr).

Definition real_rhs (rhs : R -> list (X * X) -> list (X * X))
  : R -> list X -> option (list X) :=
  fun t y =>
    match r2c y with
    | Some z => Some (c2r (rhs t z))
    | None => None
    end.

End Diffrax.

Arguments jnp_real {X} arr.
Arguments jnp_imag {X} arr.
Arguments c2r {X} arr.
Arguments add_1j_mul {X} a b.
Arguments r2c {X} arr.
Arguments real_rhs {X} rhs _ _.

(** ** The laws of the matrix algebra

    The [n x n] arrays form an algebra over the scalars; these are the laws
    of it that relate sums, differences, scalar multiples and products. *)

Class MatrixAlgebraLaws `{ArrayOps} : Prop := {
  msub_madd : forall A B : Mat, A [-] B = A [+] (-1) [*] B;
  mscale_1 : forall A : Mat, 1 [*] A = A;
  mscale_plus : forall (a b : R) (A : Mat), (a + b) [*] A = a [*] A [+] b [*] A;
  mscale_assoc : forall (a b : R) (A : Mat), a [*] (b [*] A) = (a * b) [*] A;
  mscale_0 : forall A B : Mat, 0 [*] A = 0 [*] B;
  madd_0_r : forall A B : Mat, A [+] 0 [*] B = A;
  matmul_mscale_l : forall (a : R) (A B : Mat), (a [*] A) [@] B = a [*] (A [@] B);
  matmul_mscale_r : forall (a : R) (A B : Mat), A [@] (a [*] B) = a [*] (A [@] B)
}.

(** The zero matrix. *)
Definition mzero `{ArrayOps} : Mat := 0 [*] eye.

(** ** Inputs of the examples *)

(** The merge of a call without [t_eval]: the two ends of [t_span]. *)
Definition merge_endpoints (t_span : R * R) (t_eval : option (list R))
  : result (list R) :=
  ret [fst t_span; snd t_span].

(** The merge of a call whose [t_eval] lies inside [t_span], in its
    direction and away from its ends: the two ends around [t_eval]. *)
Definition merge_around (t_span : R * R) (t_eval : option (list R))
  : result (list R) :=
  match t_eval with
  | None => ret [fst t_span; snd t_span]
  | Some points => ret (fst t_span :: points ++ [snd t_span])
  end.

(** A constant generator that grows: [diag(1, 0)]. *)
Definition growth_generator : @Mat Complex2.ops :=
  Complex2.mkM2 Complex2.C1 Complex2.C0 Complex2.C0 Complex2.C0.

(** [trim_t_results] as the solvers use it with the merges above: the
    results as they are for a call without [t_eval], and without the two
    ends that the merge put around [t_eval] otherwise. *)
Definition trim_endpoints `{ArrayOps} (results : OdeResult)
    (t_eval : option (list R)) : result OdeResult :=
  match t_eval with
  | None => ret results
  | Some _ =>
      ret (mkOdeResult _ (removelast (tl (t results)))
             (removelast (tl (y results))))
  end.

(** ** Theorems *)

(** *** Lists *)

Lemma zip_map_r {A B : Type} (f : A -> B) (l : list A) :
  zip l (map f l) = map (fun a => (a, f a)) l.
Proof. induction l as [|a l IH]; simpl; [reflexivity|now rewrite IH]. Qed.

Lemma diff_length (l : list R) : length (diff l) = (length l - 1)%nat.
Proof.
  induction l as [|a [|b l] IH]; simpl in *; try reflexivity.
  rewrite IH. lia.
Qed.

Lemma nth_error_diff (l : list R) (i : nat) (a b : R) :
  nth_error l i = Some a -> nth_error l (S i) = Some b ->
  nth_error (diff l) i = Some (b - a).
Proof.
  revert i; induction l as [|x [|x' l] IH]; intros i Ha Hb.
  - destruct i; discriminate.
  - destruct i; simpl in Hb; [discriminate|destruct i; discriminate].
  - destruct i as [|i].
    + simpl in *. now inversion Ha; inversion Hb.
    + change (nth_error (diff (x' :: l)) i = Some (b - a)).
      apply IH; assumption.
Qed.

(** *** The time grid *)

Lemma Rabs_div_pos (a b : R) : 0 < b -> Rabs (a / b) = Rabs a / b.
Proof.
  intros Hb. unfold Rdiv. rewrite Rabs_mult, (Rabs_pos_eq (/ b)); [reflexivity|].
  left. now apply Rinv_0_lt_compat.
Qed.

Lemma astype_int_floor (x : R) :
  0 <= x < 9223372036854775808 -> astype_int x = Zfloor x.
Proof.
  intros [H0 Hx]. unfold astype_int.
  destruct (Rlt_dec (-9223372036854775809) x); [|lra].
  destruct (Rlt_dec x 9223372036854775808); [|lra].
  destruct (Rlt_dec x 0); [lra|reflexivity].
Qed.

Lemma astype_int_overflow (x : R) :
  9223372036854775808 <= x -> astype_int x = int64_min.
Proof.
  intros Hx. unfold astype_int.
  destruct (Rlt_dec (-9223372036854775809) x); [|reflexivity].
  destruct (Rlt_dec x 9223372036854775808); [lra|reflexivity].
Qed.

(** When the quotient fits, the cast is the floor. *)
Lemma initial_n_steps_fits (max_dt delta_t : R) :
  fits_int64 max_dt delta_t ->
  initial_n_steps max_dt delta_t = Zfloor (Rabs (delta_t / max_dt)).
Proof.
  intros [Hdt Hx]. unfold initial_n_steps.
  destruct (Req_dec_T max_dt 0); [contradiction|].
  apply astype_int_floor. split; [apply Rabs_pos|exact Hx].
Qed.

(** When it does not, or [max_dt = 0], the cast is the least [int64]. *)
Lemma initial_n_steps_overflow (max_dt delta_t : R) :
  ~ fits_int64 max_dt delta_t -> initial_n_steps max_dt delta_t = int64_min.
Proof.
  intros Hn. unfold initial_n_steps.
  destruct (Req_dec_T max_dt 0) as [E|E]; [reflexivity|].
  apply astype_int_overflow. apply Rnot_lt_le. intros Hx. apply Hn. now split.
Qed.

Lemma fits_int64_dec (max_dt delta_t : R) :
  {fits_int64 max_dt delta_t} + {~ fits_int64 max_dt delta_t}.
Proof.
  unfold fits_int64. destruct (Req_dec_T max_dt 0) as [E|E]; [right; tauto|].
  destruct (Rlt_dec (Rabs (delta_t / max_dt)) 9223372036854775808);
    [left|right]; tauto.
Qed.

Lemma exceeds_max_dt_true (max_dt delta_t : R) (n_steps : Z) :
  max_dt <> 0 ->
  exceeds_max_dt max_dt delta_t n_steps = true <->
  Rabs (delta_t / IZR n_steps) / max_dt > one_plus_1e_15.
Proof.
  intros Hdt. unfold exceeds_max_dt.
  destruct (Req_dec_T max_dt 0); [contradiction|].
  destruct (Rgt_dec _ _); split; intros; try discriminate; tauto.
Qed.

(** The count of an interval in the words of the loop, when the quotient
    fits. *)
Lemma n_steps_of_fits (max_dt delta_t : R) :
  fits_int64 max_dt delta_t ->
  n_steps_of max_dt delta_t =
  if (Zfloor (Rabs (delta_t / max_dt)) =? 0)%Z then 1%Z
  else if Rgt_dec (Rabs (delta_t / IZR (Zfloor (Rabs (delta_t / max_dt)))) / max_dt)
                  (1 + 5 / 4503599627370496)
       then (Zfloor (Rabs (delta_t / max_dt)) + 1)%Z
       else Zfloor (Rabs (delta_t / max_dt)).
Proof.
  intros Hf. unfold n_steps_of. rewrite (initial_n_steps_fits _ _ Hf).
  unfold correct_n_steps, exceeds_max_dt, one_plus_1e_15.
  destruct Hf as [Hdt _]. destruct (Req_dec_T max_dt 0); [contradiction|].
  destruct (Z.eqb _ 0); [reflexivity|]. now destruct (Rgt_dec _ _).
Qed.

(** The count of an interval whose quotient does not fit: negative. *)
Lemma n_steps_of_overflow (max_dt delta_t : R) :
  ~ fits_int64 max_dt delta_t -> (n_steps_of max_dt delta_t < 0)%Z.
Proof.
  intros Hn. unfold n_steps_of. rewrite (initial_n_steps_overflow _ _ Hn).
  unfold correct_n_steps, int64_min. cbn [Z.eqb].
  destruct (exceeds_max_dt _ _ _); lia.
Qed.

Lemma n_steps_of_pos (max_dt delta_t : R) :
  fits_int64 max_dt delta_t -> (1 <= n_steps_of max_dt delta_t)%Z.
Proof.
  intros Hf. rewrite (n_steps_of_fits _ _ Hf).
  assert (Hn : (0 <= Zfloor (Rabs (delta_t / max_dt)))%Z)
    by (apply Zfloor_lub; apply Rabs_pos).
  destruct (Z.eqb_spec (Zfloor (Rabs (delta_t / max_dt))) 0); [lia|].
  destruct (Rgt_dec _ _); lia.
Qed.

(** No count is zero, so that every step size is a quotient. *)
Lemma n_steps_of_nonzero (max_dt delta_t : R) : n_steps_of max_dt delta_t <> 0%Z.
Proof.
  destruct (fits_int64_dec max_dt delta_t) as [Hf|Hf].
  - pose proof (n_steps_of_pos _ _ Hf). lia.
  - pose proof (n_steps_of_overflow _ _ Hf). lia.
Qed.

(** Every count is an [int64]: where the correction adds one the floor is
    below [2^52 / 5], and the sum does not leave the range. *)
Lemma n_steps_of_int64 (max_dt delta_t : R) :
  (int64_min <= n_steps_of max_dt delta_t <= 9223372036854775807)%Z.
Proof.
  destruct (fits_int64_dec max_dt delta_t) as [Hf|Hf].
  - rewrite (n_steps_of_fits _ _ Hf). destruct Hf as [Hdt Hx].
    pose proof (Zfloor_bound (Rabs (delta_t / max_dt))) as [Hlo Hhi].
    assert (Hn : (0 <= Zfloor (Rabs (delta_t / max_dt)))%Z)
      by (apply Zfloor_lub; apply Rabs_pos).
    set (x := Rabs (delta_t / max_dt)) in *.
    set (k := Zfloor x) in *.
    assert (Hk63 : (k < 9223372036854775808)%Z) by (apply lt_IZR; lra).
    unfold int64_min.
    destruct (Z.eqb_spec k 0) as [E|E]; [lia|].
    destruct (Rgt_dec _ _) as [G|G]; [|lia].
    assert (Hk1 : 1 <= IZR k) by (apply IZR_le; lia).
    destruct (Rlt_dec max_dt 0) as [Hneg|Hpos].
    + exfalso. unfold Rgt in G.
      pose proof (Rabs_pos (delta_t / IZR k)) as Ha.
      pose proof (Rinv_lt_0_compat _ Hneg) as Hi.
      unfold Rdiv in G at 1. nra.
    + assert (Hdt' : 0 < max_dt) by lra.
      assert (Hq : Rabs (delta_t / IZR k) / max_dt = x / IZR k).
      { unfold x. rewrite !Rabs_div_pos by lra. field. lra. }
      rewrite Hq in G. unfold Rgt in G.
      assert (Hxk : x = x / IZR k * IZR k) by (field; lra).
      assert (Hsmall : IZR k < 900719925474100) by nra.
      apply lt_IZR in Hsmall. lia.
  - pose proof (n_steps_of_overflow _ _ Hf) as Hneg.
    unfold n_steps_of in *. rewrite (initial_n_steps_overflow _ _ Hf) in *.
    unfold correct_n_steps, int64_min in *. cbn [Z.eqb] in *.
    destruct (exceeds_max_dt _ _ _); lia.
Qed.

(** What the three arrays are, interval by interval. *)
Lemma get_fixed_step_sizes_eq merge_t_args t_span t_eval max_dt t_list :
  merge_t_args t_span t_eval = inr t_list ->
  get_fixed_step_sizes merge_t_args t_span t_eval max_dt =
  inr (t_list,
       map (fun delta_t => delta_t / IZR (n_steps_of max_dt delta_t)) (diff t_list),
       map (n_steps_of max_dt) (diff t_list)).
Proof.
  intros Hm. unfold get_fixed_step_sizes. rewrite Hm. simpl. unfold ret.
  rewrite zip_map_r, map_map, zip_map_r, map_map. reflexivity.
Qed.

Lemma get_fixed_step_sizes_raises merge_t_args t_span t_eval max_dt e :
  merge_t_args t_span t_eval = inl e ->
  get_fixed_step_sizes merge_t_args t_span t_eval max_dt = inl e.
Proof. intros Hm. unfold get_fixed_step_sizes. now rewrite Hm. Qed.

(** The step of an interval is at most [max_dt], up to the tolerance of
    the rounding correction. *)
Lemma step_size_bound (max_dt delta_t : R) :
  0 < max_dt -> fits_int64 max_dt delta_t ->
  Rabs (delta_t / IZR (n_steps_of max_dt delta_t)) <=
  max_dt * (1 + 5 / 4503599627370496).
Proof.
  intros Hdt Hf.
  rewrite (n_steps_of_fits _ _ Hf).
  assert (Hn : (0 <= Zfloor (Rabs (delta_t / max_dt)))%Z)
    by (apply Zfloor_lub; apply Rabs_pos).
  pose proof (Zfloor_bound (Rabs (delta_t / max_dt))) as [Hlo Hhi].
  set (n := Zfloor (Rabs (delta_t / max_dt))) in *.
  rewrite Rabs_div_pos in Hlo, Hhi by assumption.
  assert (Hx : Rabs delta_t < (IZR n + 1) * max_dt).
  { apply (Rmult_lt_compat_r max_dt) in Hhi; [|assumption].
    unfold Rdiv in Hhi. rewrite Rmult_assoc, Rinv_l, Rmult_1_r in Hhi; lra. }
  destruct (Z.eqb_spec n 0) as [E|E].
  - rewrite E in Hx. simpl in Hx. unfold Rdiv. rewrite Rinv_1, Rmult_1_r. lra.
  - assert (Hn1 : 1 <= IZR n) by (apply IZR_le; lia).
    destruct (Rgt_dec _ _) as [G|G].
    + rewrite Rabs_div_pos by (rewrite plus_IZR; lra).
      rewrite plus_IZR. apply Rle_trans with max_dt; [|nra].
      apply Rmult_le_reg_r with (IZR n + 1); [lra|].
      unfold Rdiv. rewrite Rmult_assoc, Rinv_l by lra. lra.
    + apply Rnot_gt_le in G.
      apply (Rmult_le_compat_r max_dt) in G; [|lra].
      unfold Rdiv in G at 1. rewrite Rmult_assoc, Rinv_l, Rmult_1_r in G by lra.
      lra.
Qed.

Lemma step_size_exact (max_dt delta_t : R) :
  delta_t =
  IZR (n_steps_of max_dt delta_t) * (delta_t / IZR (n_steps_of max_dt delta_t)).
Proof.
  pose proof (n_steps_of_nonzero max_dt delta_t) as Hnz.
  field. now apply eq_IZR_contrapositive.
Qed.

Lemma step_size_sign (max_dt delta_t : R) :
  fits_int64 max_dt delta_t ->
  (0 < delta_t -> 0 < delta_t / IZR (n_steps_of max_dt delta_t)) /\
  (delta_t < 0 -> delta_t / IZR (n_steps_of max_dt delta_t) < 0).
Proof.
  intros Hf.
  pose proof (n_steps_of_pos max_dt delta_t Hf) as Hpos.
  apply IZR_le in Hpos.
  assert (Hinv : 0 < / IZR (n_steps_of max_dt delta_t))
    by (apply Rinv_0_lt_compat; lra).
  unfold Rdiv. split; intros Hd; nra.
Qed.

(** An interval shorter than [max_dt] fits, and takes one step. *)
Lemma fits_int64_short (max_dt delta_t : R) :
  0 < max_dt -> Rabs delta_t < max_dt ->
  0 <= Rabs (delta_t / max_dt) < 1.
Proof.
  intros Hdt Hlt. rewrite Rabs_div_pos by assumption. split.
  - apply Rmult_le_pos; [apply Rabs_pos|left; now apply Rinv_0_lt_compat].
  - apply Rmult_lt_reg_r with max_dt; [assumption|].
    unfold Rdiv. rewrite Rmult_assoc, Rinv_l by lra. lra.
Qed.

Lemma n_steps_of_short (max_dt delta_t : R) :
  0 < max_dt -> Rabs delta_t < max_dt -> n_steps_of max_dt delta_t = 1%Z.
Proof.
  intros Hdt Hlt.
  pose proof (fits_int64_short _ _ Hdt Hlt) as Hx.
  rewrite n_steps_of_fits by (split; lra).
  rewrite (Zfloor_eq 0); [reflexivity|]. simpl. lra.
Qed.

(** The grid of [t_span = (0, 1)], [t_eval = [0.25, 0.5, 0.75]] and
    [max_dt = 0.3], when the merge gives the five breakpoints: one step per
    interval. *)
Example get_fixed_step_sizes_quarters :
  get_fixed_step_sizes (fun _ _ => ret [0; 0.25; 0.5; 0.75; 1])
    (0, 1) (Some [0.25; 0.5; 0.75]) 0.3 =
  inr ([0; 0.25; 0.5; 0.75; 1],
       [(0.25 - 0) / 1; (0.5 - 0.25) / 1; (0.75 - 0.5) / 1; (1 - 0.75) / 1],
       [1; 1; 1; 1]%Z).
Proof.
  rewrite (get_fixed_step_sizes_eq _ _ _ _ [0; 0.25; 0.5; 0.75; 1]) by reflexivity.
  cbn [diff map].
  rewrite !n_steps_of_short by (try rewrite Rabs_pos_eq; lra).
  reflexivity.
Qed.

(** At the tolerance: an interval of length [1 + 5 * 2^-52], the float
    [1 + 1e-15], with [max_dt = 1] is taken in one step, the guard being
    strict. *)
Example n_steps_of_at_tolerance :
  n_steps_of 1 (1 + 5 / 4503599627370496 - 0) = 1%Z.
Proof.
  rewrite n_steps_of_fits by (split; [lra|apply Rabs_def1; lra]).
  rewrite (Zfloor_eq 1); [|rewrite Rabs_pos_eq; simpl; lra].
  simpl. destruct (Rgt_dec _ _) as [G|G]; [|reflexivity].
  exfalso. rewrite Rabs_pos_eq in G; lra.
Qed.

(** The count of the interval from 0 to [1e20] with [max_dt = 1]: the
    quotient does not fit, the cast gives [-2^63], and the correction adds
    one, the step [1e20 / 2^63] being longer than [max_dt]. *)
Lemma n_steps_of_1e20 : n_steps_of 1 (1e20 - 0) = (-9223372036854775807)%Z.
Proof.
  unfold n_steps_of.
  rewrite initial_n_steps_overflow.
  2: { intros [_ Hx]. rewrite Rabs_pos_eq in Hx; lra. }
  unfold correct_n_steps, int64_min. cbn [Z.eqb].
  replace (exceeds_max_dt 1 (1e20 - 0) (-9223372036854775808)) with true;
    [reflexivity|].
  symmetry. apply exceeds_max_dt_true; [lra|].
  unfold one_plus_1e_15. rewrite Rabs_left; lra.
Qed.




(** The count of one interval follows [step_count_rule]. *)
Lemma n_steps_of_rule (max_dt delta_t : R) :
  0 < max_dt -> fits_int64 max_dt delta_t ->
  step_count_rule max_dt delta_t (n_steps_of max_dt delta_t).
Proof.
  intros Hdt Hf. unfold step_count_rule. rewrite (n_steps_of_fits _ _ Hf).
  rewrite Rabs_div_pos by assumption.
  set (x := Rabs delta_t / max_dt).
  assert (Hx0 : 0 <= x).
  { unfold x, Rdiv. apply Rmult_le_pos; [apply Rabs_pos|].
    left; now apply Rinv_0_lt_compat. }
  pose proof (Zfloor_bound x) as [Hlo Hhi].
  pose proof (Zceil_bound x) as [Clo Chi].
  assert (Hk : (0 <= Zfloor x)%Z) by (apply Zfloor_lub; exact Hx0).
  set (k := Zfloor x) in *.
  destruct (Z.eqb_spec k 0) as [E|E].
  - split; [intros [H1 _]; lia|intros _].
    rewrite E in Hhi. simpl in Hhi.
    assert (Zceil x < 2)%Z by (apply lt_IZR; lra). lia.
  - assert (Hk1 : 1 <= IZR k) by (apply IZR_le; lia).
    assert (Hq : Rabs (delta_t / IZR k) / max_dt = x / IZR k).
    { rewrite Rabs_div_pos by lra. unfold x. field. lra. }
    rewrite Hq.
    destruct (Rgt_dec (x / IZR k) (1 + 5 / 4503599627370496)) as [G|G].
    + assert (Hxk : x = x / IZR k * IZR k) by (field; lra).
      assert (Hgt : IZR k * (1 + 5 / 4503599627370496) < x).
      { rewrite Hxk. unfold Rgt in G. nra. }
      split; [intros [_ H2]; lra|intros _].
      rewrite (Zceil_eq (k + 1) x); [lia|].
      rewrite plus_IZR. nra.
    + apply Rnot_gt_le in G.
      assert (Hxk : x = x / IZR k * IZR k) by (field; lra).
      assert (Hle : x <= IZR k * (1 + 5 / 4503599627370496)).
      { rewrite Hxk. nra. }
      split; [intros _; reflexivity|intros N; exfalso; apply N; split; [lia|lra]].
Qed.




(** *** The JAX sequential template *)

Lemma zip_removelast {A B : Type} (l : list A) (l' : list B) :
  (length l' <= length l - 1)%nat -> zip (removelast l) l' = zip l l'.
Proof.
  revert l'; induction l as [|a l IH]; intros l' Hlen; [reflexivity|].
  destruct l as [|a' l].
  - destruct l'; [reflexivity|simpl in Hlen; lia].
  - destruct l' as [|b l']; [reflexivity|].
    change (removelast (a :: a' :: l)) with (a :: removelast (a' :: l)).
    change (zip (a :: removelast (a' :: l)) (b :: l'))
      with ((a, b) :: zip (removelast (a' :: l)) l').
    change (zip (a :: a' :: l) (b :: l')) with ((a, b) :: zip (a' :: l) l').
    f_equal. apply IH. simpl in *. lia.
Qed.

Lemma fold_left_max_le (l : list Z) (n : Z) :
  (n <= fold_left Z.max l n)%Z /\ forall x, In x l -> (x <= fold_left Z.max l n)%Z.
Proof.
  revert n; induction l as [|a l IH]; intros n; simpl.
  - split; [lia|intros x []].
  - destruct (IH (Z.max n a)) as [H1 H2]. split; [lia|].
    intros x [<-|Hx]; [lia|now apply H2].
Qed.

Lemma array_max_le (a : list Z) (m : Z) :
  array_max a = inr m -> forall x, In x a -> (x <= m)%Z.
Proof.
  destruct a as [|n tl]; [discriminate|].
  intros Hm; inversion Hm; subst.
  destruct (fold_left_max_le tl n) as [H1 H2].
  intros x [<-|Hx]; [exact H1|now apply H2].
Qed.

Lemma scan_cons_fst {C X Y : Type} (f : C -> X -> C * Y) (init : C) (x : X)
    (xs : list X) :
  fst (scan f init (x :: xs)) = fst (scan f (fst (f init x)) xs).
Proof.
  simpl. destruct (f init x) as [c out]. simpl.
  now destruct (scan f c xs).
Qed.

Lemma scan_cons_snd {C X Y : Type} (f : C -> X -> C * Y) (init : C) (x : X)
    (xs : list X) :
  snd (scan f init (x :: xs)) = snd (f init x) :: snd (scan f (fst (f init x)) xs).
Proof.
  simpl. destruct (f init x) as [c out]. simpl.
  now destruct (scan f c xs).
Qed.

Section TemplateJax.

Context `{ArrayOps} {F : Type}.
Variable take_step : F -> R -> Arr -> R -> Arr.
Variable rhs_func : F.

(** Over the step indices [a, a+1, ..., a+len-1] the gated scan takes
    the steps whose index is below [n_steps], and no other. *)
Lemma scan_take_step_from (h : R) (n_steps : Z) (len a : nat) (t0 : R) (y0 : Arr) :
  snd (fst (scan (scan_take_step take_step rhs_func h n_steps) (t0, y0)
                 (map Z.of_nat (seq a len)))) =
  take_steps take_step rhs_func (Nat.min len (Z.to_nat n_steps - a)) t0 y0 h.
Proof.
  revert a t0 y0; induction len as [|len IH]; intros a t0 y0; [reflexivity|].
  change (map Z.of_nat (seq a (S len)))
    with (Z.of_nat a :: map Z.of_nat (seq (S a) len)).
  rewrite scan_cons_fst. unfold scan_take_step at 2. cbn [fst].
  rewrite IH. unfold cond.
  destruct (Z.ltb_spec (Z.of_nat a) n_steps) as [Hlt|Hge].
  - replace (Z.to_nat n_steps - a)%nat with (S (Z.to_nat n_steps - S a)) by lia.
    reflexivity.
  - replace (Z.to_nat n_steps - S a)%nat with O by lia.
    replace (Z.to_nat n_steps - a)%nat with O by lia.
    rewrite !Nat.min_0_r. reflexivity.
Qed.

(** One interval: padded to [max_steps] iterations, the scan takes
    exactly [n_steps] steps of size [h]. *)
Lemma scan_interval_integrate_steps (max_steps n_steps : Z) (current_t h : R)
    (current_y : Arr) :
  (n_steps <= max_steps)%Z ->
  scan_interval_integrate take_step rhs_func max_steps current_y
    (current_t, h, n_steps) =
  (take_steps take_step rhs_func (Z.to_nat n_steps) current_t current_y h,
   take_steps take_step rhs_func (Z.to_nat n_steps) current_t current_y h).
Proof.
  intros Hle. unfold scan_interval_integrate, arange.
  rewrite scan_take_step_from, Nat.sub_0_r, Nat.min_r by lia. reflexivity.
Qed.

(** All the intervals: the outputs of the outer scan are the values the
    loop of [fixed_step_solver_template] appends. *)
Lemma integrate_intervals_scan (max_steps : Z) (y0 : Arr)
    (xs : list (R * R * Z)) (ys : list Arr) :
  (forall x, In x xs -> (snd x <= max_steps)%Z) ->
  fold_left
    (fun ys '(current_t, h, n_steps) =>
       let y := last ys y0 in
       let y := take_steps take_step rhs_func (Z.to_nat n_steps) current_t y h in
       ys ++ [y]) xs ys =
  ys ++ snd (scan (scan_interval_integrate take_step rhs_func max_steps)
                  (last ys y0) xs).
Proof.
  revert ys; induction xs as [|[[current_t h] n_steps] xs IH]; intros ys Hmax.
  - simpl. now rewrite app_nil_r.
  - simpl fold_left. rewrite IH by (intros x Hx; apply Hmax; now right).
    rewrite last_last, scan_cons_snd.
    rewrite scan_interval_integrate_steps
      by (apply (Hmax (current_t, h, n_steps)); now left).
    cbn [fst snd]. now rewrite <- app_assoc.
Qed.

End TemplateJax.

Lemma In_zip_r {A B : Type} (l : list A) (l' : list B) (x : A * B) :
  In x (zip l l') -> In (snd x) l'.
Proof.
  revert l'; induction l as [|a l IH]; intros [|b l'] Hx; simpl in *; try contradiction.
  destruct Hx as [<-|Hx]; [now left|right; now apply IH].
Qed.


(** *** The concrete backend satisfies the laws *)

Ltac complex2_crush :=
  intros;
  repeat match goal with
         | a : Complex2.A2 |- _ => destruct a
         | m : Complex2.M2 |- _ => destruct m
         | v : Complex2.V2 |- _ => destruct v
         | c : Complex2.C |- _ => destruct c
         end;
  cbv [Complex2.A2add Complex2.A2scale Complex2.A2matmul Complex2.M2add
       Complex2.M2sub Complex2.M2scale Complex2.M2mul Complex2.M2apply
       Complex2.M2eye Complex2.V2add Complex2.V2scale Complex2.Cadd
       Complex2.Csub Complex2.Cmul Complex2.Cscale Complex2.C0 Complex2.C1
       Complex2.re Complex2.im Complex2.m00 Complex2.m01 Complex2.m10
       Complex2.m11 Complex2.v0 Complex2.v1];
  repeat match goal with
         | |- Complex2.Vector _ = Complex2.Vector _ => apply f_equal
         | |- Complex2.Square _ = Complex2.Square _ => apply f_equal
         | |- Complex2.Column _ = Complex2.Column _ => apply f_equal
         | |- Complex2.mkM2 _ _ _ _ = Complex2.mkM2 _ _ _ _ => apply f_equal4
         | |- Complex2.mkV2 _ _ = Complex2.mkV2 _ _ => apply f_equal2
         | |- Complex2.mkC _ _ = Complex2.mkC _ _ => apply f_equal2
         end;
  try ring.

#[export] Instance complex2_laws : @ArrayLaws Complex2.ops.
Proof.
  split; cbn [Mat Arr madd msub mscale matmul yadd yscale matmul_arr of_mat
              as_square Complex2.ops].
  - complex2_crush.
  - unfold eye; cbn. unfold Complex2.M2jnp_eye; cbn. complex2_crush.
  - unfold eye; cbn. unfold Complex2.M2jnp_eye; cbn. complex2_crush.
  - complex2_crush.
  - complex2_crush.
  - complex2_crush.
  - complex2_crush.
  - unfold eye; cbn. unfold Complex2.M2jnp_eye; cbn. complex2_crush.
  - complex2_crush.
  - intros [v|m|v] m' Hm; cbn in Hm; inversion Hm; reflexivity.
Qed.


(** The grid of the example: two steps up to 0.5 and five from there to 2,
    so that the scan of the first interval is padded by three
    iterations. *)
Example padded_grid :
  get_fixed_step_sizes merge_around (0, 2) (Some [0.5]) 0.3 =
  inr ([0; 0.5; 2], [(0.5 - 0) / 2; (2 - 0.5) / 5], [2; 5]%Z).
Proof.
  rewrite (get_fixed_step_sizes_eq _ _ _ _ [0; 0.5; 2]) by reflexivity.
  cbn [diff map].
  assert (H2 : n_steps_of 0.3 (0.5 - 0) = 2%Z).
  { rewrite n_steps_of_fits by (split; [lra|apply Rabs_def1; lra]).
    rewrite (Zfloor_eq 1); [|rewrite Rabs_pos_eq; simpl; lra].
    simpl. destruct (Rgt_dec _ _) as [G|G]; [reflexivity|].
    exfalso. apply G. rewrite Rabs_pos_eq; lra. }
  assert (H5 : n_steps_of 0.3 (2 - 0.5) = 5%Z).
  { rewrite n_steps_of_fits by (split; [lra|apply Rabs_def1; lra]).
    rewrite (Zfloor_eq 5); [|rewrite Rabs_pos_eq; simpl; lra].
    simpl. destruct (Rgt_dec _ _) as [G|G]; [|reflexivity].
    exfalso. rewrite Rabs_pos_eq in G; lra. }
  now rewrite H2, H5.
Qed.


(** *** Prefix scans and gathers *)

Example associative_scan_sum :
  associative_scan Z.add [1; 2; 3; 4; 5]%Z = [1; 3; 6; 10; 15]%Z.
Proof. reflexivity. Qed.

(** On four elements the last output is [(x0 - x1) - (x2 - x3)]: the
    scan combines along a tree, not from left to right. *)
Example associative_scan_tree_shape :
  associative_scan Z.sub [1; 2; 3; 4]%Z = [1; -1; -4; 0]%Z /\
  prefix_scan Z.sub [1; 2; 3; 4]%Z = [1; -1; -4; -8]%Z.
Proof. split; reflexivity. Qed.

Lemma scan_from_length {A : Type} (fn : A -> A -> A) (acc : A) (l : list A) :
  length (scan_from fn acc l) = length l.
Proof. revert acc; induction l as [|x l IH]; intros acc; simpl; [|rewrite IH]; reflexivity. Qed.

Lemma nth_scan_from {A : Type} (fn : A -> A -> A) (d : A) (l : list A) (acc : A)
    (k : nat) :
  (k < length l)%nat ->
  nth k (scan_from fn acc l) d = fold_left fn (firstn (S k) l) acc.
Proof.
  revert acc k; induction l as [|x l IH]; intros acc k Hk; simpl in Hk; [lia|].
  destruct k as [|k].
  - reflexivity.
  - change (nth k (scan_from fn (fn acc x) l) d =
            fold_left fn (firstn (S k) l) (fn acc x)).
    apply IH. lia.
Qed.

(** Two elements at a time. *)
Lemma list_pairs_ind {A : Type} (P : list A -> Prop) :
  P [] -> (forall a, P [a]) -> (forall a b l, P l -> P (a :: b :: l)) ->
  forall l, P l.
Proof.
  intros H0 H1 H2 l.
  enough (P l /\ forall a, P (a :: l)) by tauto.
  induction l as [|b l [IH IH']]; split; auto.
Qed.

Section AssociativeScan.

Context {A : Type} (fn : A -> A -> A).
Hypothesis fn_assoc : forall a b c, fn (fn a b) c = fn a (fn b c).

Lemma combine_pairs_length (l : list A) :
  (2 * length (combine_pairs fn l) <= length l)%nat.
Proof. induction l using list_pairs_ind; simpl in *; lia. Qed.

(** The outputs of odd index are the scan of the combined pairs. *)
Lemma scan_from_combine_pairs (l : list A) :
  forall c b,
    scan_from fn c (combine_pairs fn (b :: l)) = stride2 (scan_from fn (fn c b) l).
Proof.
  induction l as [| a | a b' l IH] using list_pairs_ind; intros c b.
  - reflexivity.
  - simpl. now rewrite fn_assoc.
  - change (combine_pairs fn (b :: a :: b' :: l))
      with (fn b a :: combine_pairs fn (b' :: l)).
    cbn [scan_from stride2]. rewrite <- fn_assoc, IH. reflexivity.
Qed.

Lemma prefix_scan_combine_pairs (l : list A) (x0 : A) :
  prefix_scan fn (combine_pairs fn (x0 :: l)) = stride2 (scan_from fn x0 l).
Proof.
  destruct l as [|a [|b l]]; try reflexivity.
  change (combine_pairs fn (x0 :: a :: b :: l))
    with (fn x0 a :: combine_pairs fn (b :: l)).
  cbn [prefix_scan scan_from stride2]. now rewrite scan_from_combine_pairs.
Qed.

Lemma stride2_cons (a : A) (l : list A) : stride2 (a :: l) = a :: stride2 (tl l).
Proof. destruct l; reflexivity. Qed.

(** The outputs of even index, from those of odd index and the elements
    of even index. *)
Lemma stride2_tl_scan_from (l : list A) :
  forall c,
    map (fun '(a, b) => fn a b) (zip (stride2 (scan_from fn c l)) (stride2 (tl l))) =
    stride2 (tl (scan_from fn c l)).
Proof.
  induction l as [| a | a b l IH] using list_pairs_ind; intros c; try reflexivity.
  cbn [scan_from tl]. rewrite !stride2_cons. cbn [tl zip map]. now rewrite IH.
Qed.

Lemma interleave_stride2 (l : list A) : interleave (stride2 l) (stride2 (tl l)) = l.
Proof.
  induction l as [| a | a b l IH] using list_pairs_ind; try reflexivity.
  cbn [tl]. rewrite !stride2_cons. cbn [tl interleave]. now rewrite IH.
Qed.

(** Enough depth gives the prefix scan. *)
Lemma associative_scan_rec_prefix (depth : nat) (l : list A) :
  (length l <= depth)%nat -> associative_scan_rec depth fn l = prefix_scan fn l.
Proof.
  revert l; induction depth as [|depth IH]; intros l Hlen.
  - destruct l; [reflexivity|simpl in Hlen; lia].
  - destruct l as [|x0 [|x1 l]]; try reflexivity.
    cbn [associative_scan_rec skipn].
    rewrite IH
      by (pose proof (combine_pairs_length (x0 :: x1 :: l)); simpl length in *; lia).
    rewrite prefix_scan_combine_pairs.
    change l with (tl (x1 :: l)) at 2.
    rewrite stride2_tl_scan_from, <- stride2_cons.
    change (stride2 (scan_from fn x0 (x1 :: l)))
      with (stride2 (tl (x0 :: scan_from fn x0 (x1 :: l)))).
    apply interleave_stride2.
Qed.

(** For an associative [fn] the scan of JAX is the prefix scan. *)
Lemma associative_scan_prefix (l : list A) :
  associative_scan fn l = prefix_scan fn l.
Proof. apply associative_scan_rec_prefix. lia. Qed.

(** The output of index [k] of the scan of [x :: l] combines [x] with the
    first [k] elements of [l], from left to right. *)
Lemma nth_associative_scan (d x : A) (l : list A) (k : nat) :
  (k <= length l)%nat ->
  nth k (associative_scan fn (x :: l)) d = fold_left fn (firstn k l) x.
Proof.
  intros Hk. rewrite associative_scan_prefix.
  destruct k as [|k]; simpl; [reflexivity|].
  apply nth_scan_from. lia.
Qed.

Lemma associative_scan_length (l : list A) :
  length (associative_scan fn l) = length l.
Proof.
  rewrite associative_scan_prefix.
  destruct l; simpl; [|rewrite scan_from_length]; reflexivity.
Qed.

End AssociativeScan.

Lemma jnp_index_nth {A : Type} (d : A) (a : list A) (i : Z) :
  (0 <= i < Z.of_nat (length a))%Z -> jnp_index d a i = nth (Z.to_nat i) a d.
Proof.
  intros Hi. unfold jnp_index.
  destruct (Z.ltb_spec i 0); [lia|].
  f_equal. lia.
Qed.

(** *** The loop that sets up the times of the parallel template *)

Lemma locations_from_bounds (base : Z) (ns : list Z) :
  Forall (fun n => (1 <= n)%Z) ns ->
  Forall (fun c => (base + 1 <= c <= base + fold_right Z.add 0 ns)%Z)
         (locations_from base ns).
Proof.
  intros Hns; revert base; induction Hns as [|n ns Hn Hns IH]; intros base; simpl;
    constructor.
  - assert (0 <= fold_right Z.add 0 ns)%Z; [|lia].
    clear IH. induction Hns; simpl; lia.
  - eapply Forall_impl; [|apply IH]. simpl. intros c Hc. lia.
Qed.

Lemma zip_map_fst_snd {A B : Type} (l : list (A * B)) :
  zip (map fst l) (map snd l) = l.
Proof. induction l as [|[a b] l IH]; simpl; [|rewrite IH]; reflexivity. Qed.

Lemma np_ones_nonneg (n : Z) :
  (0 <= n)%Z -> np_ones n = inr (map (fun _ => 1) (arange n)).
Proof.
  intros Hn. unfold np_ones. destruct (Z.ltb_spec n 0); [lia|reflexivity].
Qed.

Lemma np_ones_negative (n : Z) :
  (n < 0)%Z -> np_ones n = inl (ValueError "negative dimensions are not allowed").
Proof.
  intros Hn. unfold np_ones. destruct (Z.ltb_spec n 0); [reflexivity|lia].
Qed.

Lemma time_information_fold (xs : list (R * R * Z)) (all_times all_h : list R)
    (t_list_locations : list Z) :
  Forall (fun n => (0 <= n)%Z) (map snd xs) ->
  fold_left
    (fun state '(t, h, n_steps) =>
       st <- state ;;
       let '(all_times, all_h, t_list_locations) := st in
       let all_times :=
         all_times ++ map (fun k => t + h * IZR k) (arange n_steps) in
       ones <- np_ones n_steps ;;
       let all_h := all_h ++ map (fun one => h * one) ones in
       ret (all_times, all_h,
            t_list_locations ++ [(last t_list_locations 0 + n_steps)%Z]))
    xs (ret (all_times, all_h, t_list_locations)) =
  inr (all_times ++ map fst (all_steps xs),
       all_h ++ map snd (all_steps xs),
       t_list_locations ++
         locations_from (last t_list_locations 0%Z) (map snd xs)).
Proof.
  revert all_times all_h t_list_locations.
  induction xs as [|[[t h] n_steps] xs IH]; intros all_times all_h locs Hn.
  - simpl. now rewrite !app_nil_r.
  - inversion Hn as [|n ns Hn0 Hns]; subst.
    cbn [fold_left]. unfold ret at 2. cbn [bind].
    cbn [snd] in Hn0. rewrite (np_ones_nonneg _ Hn0). cbn [bind].
    rewrite IH by exact Hns. rewrite last_last.
    unfold all_steps. simpl map. simpl concat. simpl locations_from.
    rewrite !map_app, !map_map. simpl.
    rewrite <- !app_assoc. reflexivity.
Qed.

Lemma time_information_eq (t_list h_list : list R) (n_steps_list : list Z) :
  let xs := zip3 t_list h_list n_steps_list in
  Forall (fun n => (0 <= n)%Z) (map snd xs) ->
  time_information t_list h_list n_steps_list =
  inr (map fst (all_steps xs), map snd (all_steps xs),
       0%Z :: locations_from 0 (map snd xs)).
Proof.
  intros xs Hn. unfold time_information. now rewrite time_information_fold.
Qed.

(** A negative count stops the loop: [np.ones] raises. *)
Lemma time_information_negative (t_0 t_1 h : R) (n_steps : Z) :
  (n_steps < 0)%Z ->
  time_information [t_0; t_1] [h] [n_steps] =
  inl (ValueError "negative dimensions are not allowed").
Proof.
  intros Hn. unfold time_information. cbn [zip3 zip fold_left].
  unfold ret at 1. cbn [bind]. now rewrite (np_ones_negative _ Hn).
Qed.

Lemma Forall_pos_nonneg (ns : list Z) :
  Forall (fun n => (1 <= n)%Z) ns -> Forall (fun n => (0 <= n)%Z) ns.
Proof. apply Forall_impl. intros n Hn. lia. Qed.

(** *** Products of propagators *)

Section Composition.

Context `{ArrayLaws}.

Lemma fold_reverse_mul_eye (l : list Mat) (acc : Mat) :
  fold_left reverse_mul l acc = fold_left reverse_mul l eye [@] acc.
Proof.
  revert acc; induction l as [|P l IH]; intros acc; simpl.
  - now rewrite matmul_eye_l.
  - rewrite IH, (IH (reverse_mul eye P)). unfold reverse_mul.
    now rewrite matmul_eye_r, matmul_assoc.
Qed.

Lemma fold_apply_propagator_of_mat (l : list Mat) (m : Mat) :
  fold_left apply_propagator l (of_mat m) = of_mat (fold_left reverse_mul l m).
Proof.
  revert m; induction l as [|P l IH]; intros m; simpl; [reflexivity|].
  unfold apply_propagator at 2. rewrite matmul_arr_of_mat. apply IH.
Qed.

Lemma fold_apply_propagator_eye (l : list Mat) (y : Arr) :
  fold_left apply_propagator l y = fold_left reverse_mul l eye <@> y.
Proof.
  revert y; induction l as [|P l IH]; intros y; simpl.
  - now rewrite matmul_arr_eye.
  - rewrite IH, (fold_reverse_mul_eye l (reverse_mul eye P)). unfold reverse_mul.
    unfold apply_propagator. now rewrite matmul_eye_r, matmul_arr_matmul.
Qed.

End Composition.

(** *** The sequential template on a rule given by its propagator *)

Section Sequential.

Context `{ArrayOps}.
Variable propagator : (R -> Mat) -> R -> R -> Mat.
Variable generator : R -> Mat.

Lemma take_steps_from (t h : R) (n a : nat) (inner_t : R) (y : Arr) :
  inner_t = t + h * IZR (Z.of_nat a) ->
  take_steps (take_step_of propagator) generator n inner_t y h =
  fold_left apply_propagator
    (propagators_of propagator generator
       (map (fun k => (t + h * IZR k, h * 1)) (map Z.of_nat (seq a n)))) y.
Proof.
  revert a inner_t y; induction n as [|n IH]; intros a inner_t y Ht; [reflexivity|].
  simpl. rewrite (IH (S a)).
  - unfold take_step_of, apply_propagator at 3.
    rewrite Ht, Rmult_1_r. reflexivity.
  - rewrite Ht, Nat2Z.inj_succ, succ_IZR. ring.
Qed.

Lemma take_steps_interval (t h : R) (n_steps : Z) (y : Arr) :
  take_steps (take_step_of propagator) generator (Z.to_nat n_steps) t y h =
  fold_left apply_propagator
    (propagators_of propagator generator (interval_steps (t, h, n_steps))) y.
Proof.
  unfold interval_steps, arange. apply take_steps_from. simpl. ring.
Qed.

Lemma interval_steps_length (t h : R) (n_steps : Z) :
  (0 <= n_steps)%Z ->
  Z.of_nat (length (propagators_of propagator generator
                      (interval_steps (t, h, n_steps)))) = n_steps.
Proof.
  intros Hn. unfold propagators_of, interval_steps, arange.
  rewrite !length_map, length_seq. lia.
Qed.

Lemma propagators_of_all_steps_cons (x : R * R * Z) (xs : list (R * R * Z)) :
  propagators_of propagator generator (all_steps (x :: xs)) =
  propagators_of propagator generator (interval_steps x) ++
  propagators_of propagator generator (all_steps xs).
Proof. unfold propagators_of, all_steps. simpl. now rewrite map_app. Qed.

Lemma all_steps_length (xs : list (R * R * Z)) :
  Forall (fun n => (1 <= n)%Z) (map snd xs) ->
  Z.of_nat (length (propagators_of propagator generator (all_steps xs))) =
  fold_right Z.add 0%Z (map snd xs).
Proof.
  induction xs as [|[[t h] n] xs IH]; intros Hn; [reflexivity|].
  inversion Hn; subst.
  rewrite propagators_of_all_steps_cons, length_app, Nat2Z.inj_add.
  rewrite interval_steps_length by (simpl in *; lia).
  simpl. rewrite IH by assumption. reflexivity.
Qed.

(** The loop of the sequential template: its values are the first
    [k] propagators applied in turn to [y0], for [k] the location of each
    breakpoint among the steps. *)
Lemma integrate_intervals_fold (y0 : Arr) (xs : list (R * R * Z))
    (pre : list Mat) (ys : list Arr) :
  last ys y0 = fold_left apply_propagator pre y0 ->
  Forall (fun n => (1 <= n)%Z) (map snd xs) ->
  fold_left
    (fun ys '(current_t, h, n_steps) =>
       let y := last ys y0 in
       let y := take_steps (take_step_of propagator) generator
                  (Z.to_nat n_steps) current_t y h in
       ys ++ [y]) xs ys =
  ys ++ map (fun c => fold_left apply_propagator
                        (firstn (Z.to_nat c)
                           (pre ++ propagators_of propagator generator (all_steps xs)))
                        y0)
            (locations_from (Z.of_nat (length pre)) (map snd xs)).
Proof.
  revert pre ys; induction xs as [|[[t h] n] xs IH]; intros pre ys Hlast Hn.
  - simpl. now rewrite app_nil_r.
  - inversion Hn as [|n' ns' Hn1 Hns]; subst. simpl in Hn1.
    simpl fold_left.
    rewrite (IH (pre ++ propagators_of propagator generator (interval_steps (t, h, n)))).
    + rewrite <- app_assoc. f_equal.
      rewrite propagators_of_all_steps_cons, <- app_assoc.
      rewrite length_app, Nat2Z.inj_add, interval_steps_length by lia.
      simpl map. simpl locations_from. simpl app. f_equal.
      assert (Hlen : Z.to_nat (Z.of_nat (length pre) + n) =
                     length (pre ++ propagators_of propagator generator
                                      (interval_steps (t, h, n)))).
      { rewrite length_app. pose proof (interval_steps_length t h n). lia. }
      rewrite Hlen, app_assoc, firstn_app, firstn_all, Nat.sub_diag, firstn_O, app_nil_r.
      rewrite fold_left_app, <- Hlast. apply take_steps_interval.
    + rewrite last_last, fold_left_app, <- Hlast. apply take_steps_interval.
    + exact Hns.
Qed.

Lemma integrate_intervals_eq (y0 : Arr) (t_list h_list : list R)
    (n_steps_list : list Z) :
  let xs := zip3 t_list h_list n_steps_list in
  Forall (fun n => (1 <= n)%Z) (map snd xs) ->
  integrate_intervals (take_step_of propagator) generator y0
    t_list h_list n_steps_list =
  map (fun c => fold_left apply_propagator
                  (firstn (Z.to_nat c) (propagators_of propagator generator (all_steps xs))) y0)
      (0%Z :: locations_from 0 (map snd xs)).
Proof.
  intros xs Hn. unfold integrate_intervals.
  rewrite (integrate_intervals_fold y0 _ [] [y0]); [reflexivity|reflexivity|exact Hn].
Qed.

End Sequential.

(** *** The parallel composer *)

Lemma map_snd_zip3 {A B C : Type} (l : list A) (l' : list B) (l'' : list C) :
  length l' = length l'' -> (length l'' <= length l)%nat ->
  map snd (zip3 l l' l'') = l''.
Proof.
  unfold zip3. revert l' l''; induction l as [|a l IH]; intros [|b l'] [|c l''] H1 H2;
    simpl in *; try reflexivity; try lia.
  f_equal. apply IH; lia.
Qed.

Section Composer.

Context `{ArrayLaws}.

Lemma reverse_mul_assoc (A B C : Mat) :
  reverse_mul (reverse_mul A B) C = reverse_mul A (reverse_mul B C).
Proof. unfold reverse_mul. now rewrite matmul_assoc. Qed.

Lemma cumulative_propagator_scan (p : Mat) (l : list Mat) (k : nat) :
  (k <= length l)%nat ->
  nth k (associative_scan reverse_mul (p :: l)) eye =
  cumulative_propagator (p :: l) (S k).
Proof.
  intros Hk. rewrite (nth_associative_scan _ reverse_mul_assoc) by assumption.
  unfold cumulative_propagator. simpl. unfold reverse_mul at 3.
  now rewrite matmul_eye_r.
Qed.

Lemma cumulative_propagator_scan_init (m : Mat) (l : list Mat) (k : nat) :
  (k <= length l)%nat ->
  nth k (associative_scan reverse_mul (m :: l)) eye =
  cumulative_propagator l k [@] m.
Proof.
  intros Hk. rewrite (nth_associative_scan _ reverse_mul_assoc) by assumption.
  apply fold_reverse_mul_eye.
Qed.

End Composer.

(** C5. The parallel composer on a grid whose step counts are at least 1,
    for any step propagators [P_1 .. P_N], [N] the total number of steps.
    If [y0] is square it is scanned in front of the propagators, and the
    scan output at each breakpoint location is the cumulative propagator
    times [y0]. If not, the propagators are scanned alone, the outputs at
    the locations minus 1 (the sums of the preceding step counts, minus 1)
    are the cumulative propagators, they are applied to [y0], and [y0] is
    put in front. In both cases the first value is [y0]. *)
Theorem compose_propagators_spec `{ArrayLaws} (y0 : Arr)
    (step_propagators : list Mat) (t_list h_list : list R) (n_steps_list : list Z) :
  length h_list = length n_steps_list ->
  (length n_steps_list <= length t_list)%nat ->
  Forall (fun n => (1 <= n)%Z) n_steps_list ->
  Z.of_nat (length step_propagators) = fold_right Z.add 0%Z n_steps_list ->
  exists all_times all_h t_list_locations,
  time_information t_list h_list n_steps_list =
    inr (all_times, all_h, t_list_locations) /\
  let ys := compose_propagators y0 step_propagators t_list_locations in
  t_list_locations = 0%Z :: locations_from 0 n_steps_list /\
  (forall y0_mat, as_square y0 = Some y0_mat ->
     let intermediate_props :=
       associative_scan reverse_mul (y0_mat :: step_propagators) in
     ys = map (fun c => of_mat (nth (Z.to_nat c) intermediate_props eye))
              t_list_locations /\
     Forall (fun c => nth (Z.to_nat c) intermediate_props eye =
                      cumulative_propagator step_propagators (Z.to_nat c) [@] y0_mat)
            t_list_locations) /\
  (as_square y0 = None ->
     let intermediate_props := associative_scan reverse_mul step_propagators in
     ys = y0 :: map (fun c => nth (Z.to_nat (c - 1)) intermediate_props eye <@> y0)
                    (locations_from 0 n_steps_list) /\
     Forall (fun c => nth (Z.to_nat (c - 1)) intermediate_props eye =
                      cumulative_propagator step_propagators (Z.to_nat c))
            (locations_from 0 n_steps_list)) /\
  hd_error ys = Some y0.
Proof.
  intros Hlen1 Hlen2 Hn HN.
  assert (Hsnd : map snd (zip3 t_list h_list n_steps_list) = n_steps_list)
    by now apply map_snd_zip3.
  do 3 eexists. split.
  { apply time_information_eq. rewrite Hsnd. now apply Forall_pos_nonneg. }
  rewrite Hsnd.
  set (t_list_locations := 0%Z :: locations_from 0 n_steps_list).
  intros ys.
  assert (Hlocs : t_list_locations = 0%Z :: locations_from 0 n_steps_list)
    by reflexivity.
  pose proof (locations_from_bounds 0 _ Hn) as Hb. rewrite <- HN in Hb.
  split; [exact Hlocs|]. subst ys. rewrite Hlocs. clear Hlocs t_list_locations.
  split; [|split].
  - intros y0_mat Hsq intermediate_props. unfold compose_propagators. rewrite Hsq.
    fold intermediate_props.
    assert (Hin : Forall (fun c => (0 <= c <= Z.of_nat (length step_propagators))%Z)
                         (0%Z :: locations_from 0 n_steps_list)).
    { constructor; [lia|]. eapply Forall_impl; [|exact Hb]. simpl; lia. }
    split.
    + apply map_ext_in. intros c Hc.
      rewrite Forall_forall in Hin. specialize (Hin c Hc).
      rewrite jnp_index_nth; [reflexivity|].
      unfold intermediate_props.
      rewrite (associative_scan_length _ reverse_mul_assoc). simpl length. lia.
    + eapply Forall_impl; [|exact Hin]. intros c Hc. simpl in Hc.
      apply cumulative_propagator_scan_init. lia.
  - intros Hsq intermediate_props. unfold compose_propagators. rewrite Hsq.
    fold intermediate_props. simpl tl. rewrite map_map.
    assert (Hnth : Forall (fun c => nth (Z.to_nat (c - 1)) intermediate_props eye =
                       cumulative_propagator step_propagators (Z.to_nat c))
                     (locations_from 0 n_steps_list)).
    { eapply Forall_impl; [|exact Hb]. intros c Hc. simpl in Hc.
      unfold intermediate_props.
      destruct step_propagators as [|p l]; [simpl in Hc; lia|].
      replace (Z.to_nat c) with (S (Z.to_nat (c - 1))) by lia.
      apply cumulative_propagator_scan. simpl length in Hc. lia. }
    split; [|exact Hnth].
    f_equal. apply map_ext_in. intros c Hc.
    rewrite Forall_forall in Hb. specialize (Hb c Hc).
    rewrite jnp_index_nth; [reflexivity|].
    unfold intermediate_props. rewrite (associative_scan_length _ reverse_mul_assoc). lia.
  - unfold compose_propagators.
    destruct (as_square y0) as [y0_mat|] eqn:Hsq; [|reflexivity].
    cbn [map hd_error]. f_equal.
    rewrite jnp_index_nth
      by (rewrite (associative_scan_length _ reverse_mul_assoc); simpl length; lia).
    change (Z.to_nat 0) with 0%nat.
    rewrite (nth_associative_scan _ reverse_mul_assoc) by lia.
    now apply as_square_of_mat.
Qed.

(** *** Parallel against sequential *)

Section ModeEquivalence.

Context `{ArrayLaws}.

(** The values of the parallel composer are those of the sequential loop:
    at each breakpoint, the propagators of the steps before it applied in
    turn to [y0]. *)
Lemma compose_propagators_eq (y0 : Arr) (step_propagators : list Mat)
    (n_steps_list : list Z) :
  Forall (fun n => (1 <= n)%Z) n_steps_list ->
  Z.of_nat (length step_propagators) = fold_right Z.add 0%Z n_steps_list ->
  compose_propagators y0 step_propagators (0%Z :: locations_from 0 n_steps_list) =
  map (fun c => fold_left apply_propagator (firstn (Z.to_nat c) step_propagators) y0)
      (0%Z :: locations_from 0 n_steps_list).
Proof.
  intros Hn HN.
  pose proof (locations_from_bounds 0 _ Hn) as Hb. rewrite <- HN in Hb.
  rewrite Forall_forall in Hb.
  unfold compose_propagators.
  destruct (as_square y0) as [y0_mat|] eqn:Hsq.
  - apply map_ext_in. intros c Hc.
    assert (Hc' : (0 <= c <= Z.of_nat (length step_propagators))%Z).
    { destruct Hc as [<-|Hc]; [lia|]. specialize (Hb c Hc). lia. }
    rewrite jnp_index_nth
      by (rewrite (associative_scan_length _ reverse_mul_assoc); simpl length; lia).
    rewrite (nth_associative_scan _ reverse_mul_assoc) by lia.
    rewrite <- fold_apply_propagator_of_mat.
    now rewrite (as_square_of_mat _ _ Hsq).
  - cbn [tl map]. f_equal. rewrite map_map. apply map_ext_in. intros c Hc.
    specialize (Hb c Hc).
    rewrite jnp_index_nth by (rewrite (associative_scan_length _ reverse_mul_assoc); lia).
    rewrite fold_apply_propagator_eye. f_equal.
    destruct step_propagators as [|p l]; [simpl in Hb; lia|].
    replace (Z.to_nat c) with (S (Z.to_nat (c - 1))) by lia.
    apply cumulative_propagator_scan. simpl length in Hb. lia.
Qed.

End ModeEquivalence.

Lemma n_steps_list_pos (max_dt : R) (deltas : list R) :
  Forall (fits_int64 max_dt) deltas ->
  Forall (fun n => (1 <= n)%Z) (map (n_steps_of max_dt) deltas).
Proof.
  intros Hf. rewrite Forall_map. eapply Forall_impl; [|exact Hf].
  intros d Hd. now apply n_steps_of_pos.
Qed.

Section ParallelAgreement.

Context `{ArrayLaws}.

(** On a grid with an interval, whose counts fit, the loop of the times
    and [vmap] return, and the composer gives the values of the loop of
    the sequential template. *)
Lemma parallel_values_agree (propagator : (R -> Mat) -> R -> R -> Mat)
    (generator : R -> Mat) (y0 : Arr) (max_dt : R) (t_list : list R) :
  (2 <= length t_list)%nat ->
  Forall (fits_int64 max_dt) (diff t_list) ->
  let h_list :=
    map (fun delta_t => delta_t / IZR (n_steps_of max_dt delta_t)) (diff t_list) in
  let n_steps_list := map (n_steps_of max_dt) (diff t_list) in
  exists all_times all_h t_list_locations step_propagators,
    time_information t_list h_list n_steps_list =
      inr (all_times, all_h, t_list_locations) /\
    vmap_take_step propagator generator (zip3 t_list h_list n_steps_list)
      all_times all_h = inr step_propagators /\
    compose_propagators y0 step_propagators t_list_locations =
    integrate_intervals (take_step_of propagator) generator y0
      t_list h_list n_steps_list.
Proof.
  intros Hlen Hfits h_list n_steps_list.
  assert (Hsnd : map snd (zip3 t_list h_list n_steps_list) = n_steps_list).
  { apply map_snd_zip3; unfold h_list, n_steps_list;
      rewrite !length_map; [reflexivity|rewrite diff_length; lia]. }
  assert (Hpos : Forall (fun n => (1 <= n)%Z) n_steps_list)
    by now apply n_steps_list_pos.
  do 4 eexists. split; [|split].
  - apply time_information_eq. rewrite Hsnd. now apply Forall_pos_nonneg.
  - unfold vmap_take_step. rewrite zip_map_fst_snd.
    destruct (zip3 t_list h_list n_steps_list) as [|x xs] eqn:Hxs.
    { exfalso. destruct t_list as [|a [|b l]]; simpl in Hlen; try lia.
      discriminate Hxs. }
    rewrite <- Hxs. reflexivity.
  - fold (propagators_of propagator generator
            (all_steps (zip3 t_list h_list n_steps_list))).
    rewrite integrate_intervals_eq by (rewrite Hsnd; exact Hpos).
    rewrite Hsnd.
    apply (compose_propagators_eq y0
             (propagators_of propagator generator
                (all_steps (zip3 t_list h_list n_steps_list)))).
    + exact Hpos.
    + rewrite all_steps_length by (rewrite Hsnd; exact Hpos). now rewrite Hsnd.
Qed.

Variable merge_t_args : R * R -> option (list R) -> result (list R).
Variable trim_t_results : OdeResult -> option (list R) -> result OdeResult.

(** So the parallel template on a propagator returns what the plain
    template returns on its state-space step. *)
Lemma template_parallel_agrees (propagator : (R -> Mat) -> R -> R -> Mat)
    (generator : R -> Mat) t_span y0 max_dt t_eval :
  (forall t_list, merge_t_args t_span t_eval = inr t_list -> (2 <= length t_list)%nat) ->
  (forall t_list, merge_t_args t_span t_eval = inr t_list ->
                  Forall (fits_int64 max_dt) (diff t_list)) ->
  fixed_step_lmde_solver_parallel_template_jax merge_t_args trim_t_results
    propagator generator t_span y0 max_dt t_eval =
  fixed_step_solver_template merge_t_args trim_t_results
    (take_step_of propagator) generator t_span y0 max_dt t_eval.
Proof.
  intros Hlen Hfits.
  unfold fixed_step_lmde_solver_parallel_template_jax, fixed_step_solver_template.
  destruct (merge_t_args t_span t_eval) as [e|t_list] eqn:Hm.
  - now rewrite (get_fixed_step_sizes_raises _ _ _ _ _ Hm).
  - rewrite (get_fixed_step_sizes_eq _ _ _ _ _ Hm). cbn [bind].
    destruct (parallel_values_agree propagator generator y0 max_dt t_list
                (Hlen t_list eq_refl) (Hfits t_list eq_refl))
      as (all_times & all_h & locs & sp & Hti & Hv & Hc).
    rewrite Hti. cbn [bind]. rewrite Hv. cbn [bind]. now rewrite Hc.
Qed.

End ParallelAgreement.




Lemma compose_propagators_spec_witness :
  let y0 := Complex2.column_e0 in
  let step_propagators :=
    [Complex2.ramp_generator 0; Complex2.ramp_generator 0.5] in
  exists all_times all_h t_list_locations,
  time_information [0; 1] [0.5] [2%Z] =
    inr (all_times, all_h, t_list_locations) /\
  let ys := compose_propagators y0 step_propagators t_list_locations in
  t_list_locations = 0%Z :: locations_from 0 [2%Z] /\
  (forall y0_mat, as_square y0 = Some y0_mat ->
     let intermediate_props :=
       associative_scan reverse_mul (y0_mat :: step_propagators) in
     ys = map (fun c => of_mat (nth (Z.to_nat c) intermediate_props eye))
              t_list_locations /\
     Forall (fun c => nth (Z.to_nat c) intermediate_props eye =
                      cumulative_propagator step_propagators (Z.to_nat c) [@] y0_mat)
            t_list_locations) /\
  (as_square y0 = None ->
     let intermediate_props := associative_scan reverse_mul step_propagators in
     ys = y0 :: map (fun c => nth (Z.to_nat (c - 1)) intermediate_props eye <@> y0)
                    (locations_from 0 [2%Z]) /\
     Forall (fun c => nth (Z.to_nat (c - 1)) intermediate_props eye =
                      cumulative_propagator step_propagators (Z.to_nat c))
            (locations_from 0 [2%Z])) /\
  hd_error ys = Some y0.
Proof.
  apply (@compose_propagators_spec Complex2.ops complex2_laws).
  - reflexivity.
  - simpl. lia.
  - repeat constructor. lia.
  - reflexivity.
Defined.

(** *** The Magnus rules *)

(** C7. Magnus order 2: the step function returned for [magnus_order = 2]
    samples the generator at [t0 + (1/2 - sqrt 3 / 6) h] and
    [t0 + (1/2 + sqrt 3 / 6) h] and returns
    [exp(h/2 (G1 + G2) + (sqrt 3 / 12) h^2 [G2, G1])], applied to [y] in
    the state-space form. *)
Theorem magnus2_formula `{ArrayLaws} (expm_func : Mat -> Mat) :
  exists (propagator : propagator_fun) (take_step : take_step_fun),
    get_exponential_take_step 2 expm_func true = inr propagator /\
    get_exponential_take_step 2 expm_func false = inr take_step /\
    forall (G : R -> Mat) (t0 h : R),
      propagator G t0 h = spec_magnus2 expm_func G t0 h /\
      forall y : Arr, take_step G t0 y h = spec_magnus2 expm_func G t0 h <@> y.
Proof.
  exists (magnus2_propagator expm_func),
         (fun generator t0 y h => magnus2_propagator expm_func generator t0 h <@> y).
  split; [reflexivity|]. split; [reflexivity|].
  intros G t0 h.
  assert (E : magnus2_propagator expm_func G t0 h = spec_magnus2 expm_func G t0 h).
  { unfold magnus2_propagator, spec_magnus2, matrix_commutator, spec_commutator, mdiv.
    rewrite mscale_mscale.
    replace (0.5 - sqrt 3 / 6) with (1 / 2 - sqrt 3 / 6) by lra.
    replace (0.5 + sqrt 3 / 6) with (1 / 2 + sqrt 3 / 6) by lra.
    replace (/ 2 * h) with (h / 2) by lra.
    reflexivity. }
  split; [exact E|]. intros y. now rewrite E.
Qed.

Lemma magnus2_formula_witness :
  exists (propagator : propagator_fun) (take_step : take_step_fun),
    get_exponential_take_step 2 Complex2.expm_order1 true = inr propagator /\
    get_exponential_take_step 2 Complex2.expm_order1 false = inr take_step /\
    forall (G : R -> Mat) (t0 h : R),
      propagator G t0 h = spec_magnus2 Complex2.expm_order1 G t0 h /\
      forall y : Arr,
        take_step G t0 y h = spec_magnus2 Complex2.expm_order1 G t0 h <@> y.
Proof.
  exact (@magnus2_formula Complex2.ops complex2_laws Complex2.expm_order1).
Defined.

(** C4. Magnus order 3: the step function returned for [magnus_order = 3]
    samples the generator at [t0 + h/2] and [t0 + (1/2 -+ sqrt 15 / 10) h],
    forms [a1 = h G2], [a2 = (sqrt 15 / 3) h (G3 - G1)],
    [a3 = (10/3) h (G3 - 2 G2 + G1)] and returns [exp(terms)] with
    [terms = a1 + a3/12 +
     [-20 a1 - a3 + [a1, a2], a2 + [2 a3 + [a1, a2], a1]/60] / 240],
    applied to [y] in the state-space form. *)
Theorem magnus3_formula `{ArrayOps} (expm_func : Mat -> Mat) :
  exists (propagator : propagator_fun) (take_step : take_step_fun),
    get_exponential_take_step 3 expm_func true = inr propagator /\
    get_exponential_take_step 3 expm_func false = inr take_step /\
    forall (G : R -> Mat) (t0 h : R),
      propagator G t0 h = spec_magnus3 expm_func G t0 h /\
      forall y : Arr, take_step G t0 y h = spec_magnus3 expm_func G t0 h <@> y.
Proof.
  exists (magnus3_propagator expm_func),
         (fun generator t0 y h => magnus3_propagator expm_func generator t0 h <@> y).
  split; [reflexivity|]. split; [reflexivity|].
  intros G t0 h.
  assert (E : magnus3_propagator expm_func G t0 h = spec_magnus3 expm_func G t0 h).
  { unfold magnus3_propagator, spec_magnus3, matrix_commutator, spec_commutator.
    replace (0.5 - sqrt 15 / 10) with (1 / 2 - sqrt 15 / 10) by lra.
    replace (0.5 + sqrt 15 / 10) with (1 / 2 + sqrt 15 / 10) by lra.
    replace (0.5 * h) with (h / 2) by lra.
    replace (10.0 / 3) with (10 / 3) by lra.
    reflexivity. }
  split; [exact E|]. intros y. now rewrite E.
Qed.

Lemma magnus3_formula_witness :
  exists (propagator : propagator_fun) (take_step : take_step_fun),
    get_exponential_take_step 3 Complex2.expm_order1 true = inr propagator /\
    get_exponential_take_step 3 Complex2.expm_order1 false = inr take_step /\
    forall (G : R -> Mat) (t0 h : R),
      propagator G t0 h = spec_magnus3 Complex2.expm_order1 G t0 h /\
      forall y : Arr,
        take_step G t0 y h = spec_magnus3 Complex2.expm_order1 G t0 h <@> y.
Proof.
  exact (@magnus3_formula Complex2.ops Complex2.expm_order1).
Defined.

(** *** Unsupported orders *)

Lemma get_exponential_take_step_unsupported `{ArrayOps} (magnus_order : Z)
    (expm_func : Mat -> Mat) (just_propagator : bool) :
  magnus_order <> 1%Z -> magnus_order <> 2%Z -> magnus_order <> 3%Z ->
  get_exponential_take_step magnus_order expm_func just_propagator =
  inl unsupported_order.
Proof.
  intros H1 H2 H3. unfold get_exponential_take_step.
  destruct (Z.eqb_spec magnus_order 1); [contradiction|].
  destruct (Z.eqb_spec magnus_order 2); [contradiction|].
  destruct (Z.eqb_spec magnus_order 3); [contradiction|].
  reflexivity.
Qed.

Lemma get_exponential_take_step_supported `{ArrayOps} (magnus_order : Z)
    (expm_func : Mat -> Mat) :
  magnus_order = 1%Z \/ magnus_order = 2%Z \/ magnus_order = 3%Z ->
  exists propagator : propagator_fun,
    get_exponential_take_step magnus_order expm_func true = inr propagator /\
    get_exponential_take_step magnus_order expm_func false =
      inr (take_step_of propagator).
Proof.
  intros [->|[->| ->]]; eexists; split; reflexivity.
Qed.

(** C9. Unsupported Magnus order: for an order other than 1, 2 and 3 the
    three matrix-exponential solvers raise the error of
    [get_exponential_take_step], whatever the generator and whatever the
    merge of the time arguments would do: nothing of the template runs.
    For the orders 1, 2 and 3 [get_exponential_take_step] returns a step
    function and each solver is its template on that function. *)
Theorem magnus_order_check `{ArrayOps} merge_t_args trim_t_results
    (expm jexpm : Mat -> Mat) (generator : R -> Mat) t_span t_dtype y0 max_dt t_eval
    (magnus_order : Z) :
  (magnus_order <> 1%Z /\ magnus_order <> 2%Z /\ magnus_order <> 3%Z ->
   scipy_expm_solver merge_t_args trim_t_results expm
     generator t_span y0 max_dt t_eval magnus_order = inl unsupported_order /\
   jax_expm_solver merge_t_args trim_t_results jexpm
     generator t_span t_dtype y0 max_dt t_eval magnus_order = inl unsupported_order /\
   jax_expm_parallel_solver merge_t_args trim_t_results jexpm
     generator t_span y0 max_dt t_eval magnus_order = inl unsupported_order) /\
  (magnus_order = 1%Z \/ magnus_order = 2%Z \/ magnus_order = 3%Z ->
   exists propagator jpropagator : propagator_fun,
     get_exponential_take_step magnus_order expm false =
       inr (take_step_of propagator) /\
     get_exponential_take_step magnus_order jexpm false =
       inr (take_step_of jpropagator) /\
     get_exponential_take_step magnus_order jexpm true = inr jpropagator /\
     scipy_expm_solver merge_t_args trim_t_results expm
       generator t_span y0 max_dt t_eval magnus_order =
     fixed_step_solver_template merge_t_args trim_t_results
       (take_step_of propagator) generator t_span y0 max_dt t_eval /\
     jax_expm_solver merge_t_args trim_t_results jexpm
       generator t_span t_dtype y0 max_dt t_eval magnus_order =
     fixed_step_solver_template_jax merge_t_args trim_t_results
       (take_step_of jpropagator) generator t_span t_dtype y0 max_dt t_eval /\
     jax_expm_parallel_solver merge_t_args trim_t_results jexpm
       generator t_span y0 max_dt t_eval magnus_order =
     fixed_step_lmde_solver_parallel_template_jax merge_t_args trim_t_results
       jpropagator generator t_span y0 max_dt t_eval).
Proof.
  split.
  - intros (H1 & H2 & H3).
    unfold scipy_expm_solver, jax_expm_solver, jax_expm_parallel_solver.
    rewrite !get_exponential_take_step_unsupported by assumption.
    repeat split.
  - intros Hs.
    destruct (get_exponential_take_step_supported magnus_order expm Hs)
      as (propagator & Hp & Ht).
    destruct (get_exponential_take_step_supported magnus_order jexpm Hs)
      as (jpropagator & Hjp & Hjt).
    exists propagator, jpropagator.
    unfold scipy_expm_solver, jax_expm_solver, jax_expm_parallel_solver.
    rewrite Ht, Hjt, Hjp. repeat split.
Qed.

Lemma magnus_order_check_witness :
  scipy_expm_solver merge_endpoints Complex2.trim_nothing Complex2.expm_order1
    Complex2.ramp_generator (0, 1) Complex2.vector_e0 0.3 None 4 =
    inl unsupported_order /\
  jax_expm_solver merge_endpoints Complex2.trim_nothing Complex2.expm_diag
    Complex2.ramp_generator (0, 1) int_dtype Complex2.vector_e0 0.3 None 4 =
    inl unsupported_order /\
  jax_expm_parallel_solver merge_endpoints Complex2.trim_nothing Complex2.expm_diag
    Complex2.ramp_generator (0, 1) Complex2.vector_e0 0.3 None 4 =
    inl unsupported_order.
Proof.
  apply (proj1 (@magnus_order_check Complex2.ops merge_endpoints Complex2.trim_nothing
                  Complex2.expm_order1 Complex2.expm_diag Complex2.ramp_generator
                  (0, 1) int_dtype Complex2.vector_e0 0.3 None 4%Z)).
  repeat split; discriminate.
Defined.

(** *** A constant generator under the Magnus rule of order 1 *)

Section ConstantGenerator.

Context `{ArrayLaws}.
Variable expm_func : Mat -> Mat.
Variable G : Mat.

Hypothesis expm_add :
  forall a b : R, expm_func (a [*] G) [@] expm_func (b [*] G) = expm_func ((a + b) [*] G).

Let take_step : take_step_fun := take_step_of (magnus1_propagator expm_func).

(** [n] steps of size [h] amount to one step of size [n * h]. *)
Lemma take_steps_constant (n : nat) (t h : R) (y : Arr) :
  take_steps take_step (fun _ => G) (S n) t y h =
  expm_func ((INR (S n) * h) [*] G) <@> y.
Proof.
  revert t y; induction n as [|n IH]; intros t y.
  - simpl. unfold take_step, take_step_of, magnus1_propagator.
    now rewrite Rmult_1_l.
  - change (take_steps take_step (fun _ => G) (S (S n)) t y h)
      with (take_steps take_step (fun _ => G) (S n) (t + h)
              (take_step (fun _ => G) t y h) h).
    rewrite IH. unfold take_step, take_step_of, magnus1_propagator.
    rewrite <- matmul_arr_matmul, expm_add. do 2 f_equal. f_equal.
    rewrite (S_INR (S n)). ring.
Qed.

(** The step of one interval of the grid. *)
Lemma take_steps_interval_constant (max_dt delta_t t : R) (y : Arr) :
  fits_int64 max_dt delta_t ->
  take_steps take_step (fun _ => G) (Z.to_nat (n_steps_of max_dt delta_t)) t y
    (delta_t / IZR (n_steps_of max_dt delta_t)) =
  expm_func (delta_t [*] G) <@> y.
Proof.
  intros Hf.
  pose proof (n_steps_of_pos max_dt delta_t Hf) as Hpos.
  set (n := n_steps_of max_dt delta_t) in *.
  destruct (Z.to_nat n) as [|k] eqn:Hk; [lia|].
  rewrite take_steps_constant. do 2 f_equal. f_equal.
  rewrite <- Hk, INR_IZR_INZ, Z2Nat.id by lia.
  field. apply eq_IZR_contrapositive. lia.
Qed.

(** Every breakpoint: the value at [t_i] is [exp((t_i - t) G)] applied to
    the value at the breakpoint [t] the loop starts from. *)
Lemma integrate_intervals_constant (max_dt : R) (y0 : Arr) (rest : list R) (t : R)
    (ys : list Arr) :
  let t_list := t :: rest in
  let n_steps_list := map (n_steps_of max_dt) (diff t_list) in
  let h_list :=
    map (fun delta_t => delta_t / IZR (n_steps_of max_dt delta_t)) (diff t_list) in
  Forall (fits_int64 max_dt) (diff t_list) ->
  fold_left
    (fun ys '(current_t, h, n_steps) =>
       ys ++ [take_steps take_step (fun _ => G) (Z.to_nat n_steps) current_t
                (last ys y0) h])
    (zip3 t_list h_list n_steps_list) ys =
  ys ++ map (fun t_i => expm_func ((t_i - t) [*] G) <@> last ys y0) rest.
Proof.
  revert t ys; induction rest as [|t1 rest IH]; intros t ys; cbv zeta; intros Hfits.
  - simpl. now rewrite app_nil_r.
  - change (diff (t :: t1 :: rest)) with ((t1 - t) :: diff (t1 :: rest)) in *.
    inversion Hfits as [|d ds Hf Hfs]; subst.
    cbn [map zip3 zip fold_left].
    fold (zip3 (t1 :: rest)
            (map (fun delta_t => delta_t / IZR (n_steps_of max_dt delta_t))
                 (diff (t1 :: rest)))
            (map (n_steps_of max_dt) (diff (t1 :: rest)))).
    rewrite (IH t1) by exact Hfs.
    rewrite last_last, take_steps_interval_constant by exact Hf.
    rewrite <- app_assoc. f_equal. cbn [app map]. f_equal.
    apply map_ext. intros t_i.
    rewrite <- matmul_arr_matmul, expm_add. do 2 f_equal. f_equal. ring.
Qed.

End ConstantGenerator.


Lemma Cexp_add (a b : Complex2.C) :
  Complex2.Cmul (Complex2.Cexp a) (Complex2.Cexp b) =
  Complex2.Cexp (Complex2.Cadd a b).
Proof.
  destruct a as [x u], b as [x' u'].
  unfold Complex2.Cmul, Complex2.Cexp, Complex2.Cadd. cbn [Complex2.re Complex2.im].
  rewrite exp_plus, cos_plus, sin_plus. f_equal; ring.
Qed.

Lemma expm_diag_add (A : @Mat Complex2.ops) (a b : R) :
  Complex2.expm_diag (a [*] A) [@] Complex2.expm_diag (b [*] A) =
  Complex2.expm_diag ((a + b) [*] A).
Proof.
  destruct A as [a00 a01 a10 a11].
  unfold Complex2.expm_diag. cbn [mscale matmul Complex2.ops].
  unfold Complex2.M2mul, Complex2.M2scale.
  cbn [Complex2.m00 Complex2.m01 Complex2.m10 Complex2.m11].
  assert (Hz : forall c, Complex2.Cadd c Complex2.C0 = c) by complex2_crush.
  assert (Hz' : forall c, Complex2.Cadd Complex2.C0 c = c) by complex2_crush.
  assert (Hl : forall c, Complex2.Cmul c Complex2.C0 = Complex2.C0) by complex2_crush.
  assert (Hr : forall c, Complex2.Cmul Complex2.C0 c = Complex2.C0) by complex2_crush.
  assert (Hs : forall c, Complex2.Cadd (Complex2.Cscale a c) (Complex2.Cscale b c) =
                         Complex2.Cscale (a + b) c) by complex2_crush.
  rewrite !Hl, !Hr, !Hz, !Hz', !Cexp_add, !Hs. reflexivity.
Qed.



(** *** Propagator-only forms *)

Section PropagatorOnly.

Context `{ArrayLaws}.

(** RK4 is linear in the state: when [ident] is the identity, the RK4
    propagator applied to [y] is the RK4 step of [f(t, y) = G(t) @ y]. *)
Lemma RK4_parallel_take_step_linear (G : R -> Mat) (t h : R) (y : Arr) :
  RK4_parallel_take_step eye G t h <@> y =
  RK4_take_step (fun t y => G t <@> y) t y h.
Proof.
  unfold RK4_parallel_take_step, RK4_take_step. cbv zeta.
  rewrite !matmul_arr_madd, !matmul_arr_mscale, !matmul_arr_madd.
  rewrite !matmul_arr_mscale, !matmul_arr_matmul.
  rewrite !matmul_arr_madd, !matmul_arr_mscale, !matmul_arr_matmul.
  rewrite !matmul_arr_madd, !matmul_arr_mscale, !matmul_arr_matmul.
  rewrite !matmul_arr_madd, !matmul_arr_mscale, !matmul_arr_eye.
  reflexivity.
Qed.

(** So is the propagator of [jax_RK4_parallel_solver] when the last axis
    of [y0] has the generator's dimension. *)
Lemma jax_RK4_parallel_take_step_linear (G : R -> Mat) (y0 : Arr) (t h : R) (y : Arr) :
  shape_last y0 = dim ->
  RK4_parallel_take_step (jnp_eye (shape_last y0)) G t h <@> y =
  RK4_take_step (fun t y => G t <@> y) t y h.
Proof. intros ->. apply RK4_parallel_take_step_linear. Qed.

End PropagatorOnly.

Lemma n_steps_of_unit_interval : n_steps_of 1 (1 - 0) = 1%Z.
Proof.
  rewrite n_steps_of_fits by (split; [lra|apply Rabs_def1; lra]).
  rewrite (Zfloor_eq 1); [|rewrite Rabs_pos_eq; lra].
  simpl. destruct (Rgt_dec _ _) as [G|G]; [|reflexivity].
  exfalso. rewrite Rabs_pos_eq in G; lra.
Qed.

(** C6 fails on a state of shape [(2, 1)]: [jax_RK4_parallel_solver] takes
    the size of its identity from the last axis of [y0], here 1, and the
    [1 x 1] identity broadcasts to the all-ones matrix. With the zero
    generator the RK4 step leaves the column [[1], [0]] as it is, while
    the propagator of the parallel solver sends it to [[1], [1]]; the two
    solvers return different values at [t = 1]. *)
Theorem jax_RK4_parallel_solver_column_state :
  let G := Complex2.zero_generator in
  let rhs : R -> @Arr Complex2.ops -> @Arr Complex2.ops := fun t y => G t <@> y in
  let y0 := Complex2.column_e0 in
  let ones := Complex2.Column (Complex2.mkV2 Complex2.C1 Complex2.C1) in
  RK4_parallel_take_step (jnp_eye (shape_last y0)) G 0 1 <@> y0 = ones /\
  RK4_take_step rhs 0 y0 1 = y0 /\
  y0 <> ones /\
  jax_RK4_parallel_solver merge_endpoints Complex2.trim_nothing G (0, 1) y0 1 None =
    inr (mkOdeResult _ [0; 1] [y0; ones]) /\
  jax_RK4_solver merge_endpoints Complex2.trim_nothing rhs (0, 1) float_dtype
    y0 1 None =
    inr (mkOdeResult _ [0; 1] [y0; y0]).
Proof.
  intros G rhs y0 ones.
  assert (Hpar : forall t h,
            RK4_parallel_take_step (jnp_eye (shape_last y0)) G t h <@> y0 = ones).
  { intros t h. unfold RK4_parallel_take_step, G, y0, ones, Complex2.zero_generator,
      Complex2.column_e0, Complex2.e0, div6.
    cbn [jnp_eye shape_last matmul_arr madd mscale matmul Complex2.ops
         Complex2.A2shape_last].
    unfold Complex2.M2jnp_eye, Complex2.M2ones, Complex2.M2zero. cbn [Nat.eqb].
    complex2_crush. }
  assert (Hseq : forall t h, RK4_take_step rhs t y0 h = y0).
  { intros t h. unfold RK4_take_step, rhs, G, y0, Complex2.zero_generator,
      Complex2.column_e0, Complex2.e0, div6.
    cbn [matmul_arr yadd yscale Complex2.ops].
    unfold Complex2.M2zero. complex2_crush. }
  split; [apply Hpar|]. split; [apply Hseq|]. split.
  { unfold y0, ones, Complex2.column_e0, Complex2.e0, Complex2.C0, Complex2.C1.
    intros E. inversion E. lra. }
  split.
  - unfold jax_RK4_parallel_solver, fixed_step_lmde_solver_parallel_template_jax.
    rewrite (get_fixed_step_sizes_eq merge_endpoints (0, 1) None 1 [0; 1])
      by reflexivity.
    cbn [bind diff map]. rewrite n_steps_of_unit_interval.
    change (time_information [0; 1] [(1 - 0) / 1] [1%Z])
      with (@inr exn _ ([0 + (1 - 0) / 1 * 0], [(1 - 0) / 1 * 1], [0%Z; 1%Z])).
    cbn [zip3 zip vmap_take_step map bind ret].
    unfold Complex2.trim_nothing, ret. do 2 f_equal.
    unfold compose_propagators.
    change (as_square y0) with (@None (@Mat Complex2.ops)).
    cbn [tl map].
    change (associative_scan reverse_mul [?P]) with [P].
    change (jnp_index eye ?l (1 - 1)) with (jnp_index eye l 0).
    rewrite jnp_index_nth by (simpl; lia).
    cbn [Z.to_nat nth]. now rewrite Hpar.
  - unfold jax_RK4_solver, fixed_step_solver_template_jax.
    rewrite (get_fixed_step_sizes_eq merge_endpoints (0, 1) None 1 [0; 1])
      by reflexivity.
    cbn [bind diff map]. rewrite n_steps_of_unit_interval.
    cbn [array_max fold_left ret bind removelast zip3 zip scan check_carry_type].
    unfold scan_interval_integrate.
    change (arange 1) with [0%Z].
    cbn [scan]. unfold scan_take_step, cond. cbn [Z.ltb Z.compare fst snd].
    unfold Complex2.trim_nothing, ret. now rewrite Hseq.
Qed.

(** ** Further properties of the time grid *)

Lemma Rabs_div_IZR_pos (delta_t : R) (m : Z) :
  (1 <= m)%Z -> Rabs (delta_t / IZR m) = Rabs delta_t / IZR m.
Proof. intros Hm. apply Rabs_div_pos. apply IZR_lt. lia. Qed.

(** No smaller count of equal steps fits under [max_dt]. *)
Lemma n_steps_of_least (max_dt delta_t : R) (m : Z) :
  0 < max_dt -> (1 <= m < n_steps_of max_dt delta_t)%Z ->
  max_dt < Rabs delta_t / IZR m.
Proof.
  intros Hdt [Hm1 Hmn].
  destruct (fits_int64_dec max_dt delta_t) as [Hf|Hf];
    [|pose proof (n_steps_of_overflow _ _ Hf); lia].
  assert (Hm : 0 < IZR m) by (apply IZR_lt; lia).
  rewrite (n_steps_of_fits _ _ Hf) in Hmn.
  rewrite Rabs_div_pos in Hmn by assumption.
  set (x := Rabs delta_t / max_dt) in *.
  assert (Hx : Rabs delta_t = x * max_dt) by (unfold x; field; lra).
  pose proof (Zfloor_bound x) as [Hlo Hhi].
  set (k := Zfloor x) in *.
  assert (Hgoal : IZR m < x -> max_dt < Rabs delta_t / IZR m).
  { intros Hlt. rewrite Hx. apply Rmult_lt_reg_r with (IZR m); [assumption|].
    unfold Rdiv. rewrite Rmult_assoc, Rinv_l, Rmult_1_r by lra. nra. }
  destruct (Z.eqb_spec k 0) as [E|E]; [lia|].
  destruct (Rgt_dec _ _) as [G|G].
  - apply Hgoal.
    assert (Hk : (1 <= k)%Z) by lia.
    rewrite Rabs_div_IZR_pos in G by assumption.
    assert (Hk' : 1 <= IZR k) by (apply IZR_le; lia).
    assert (Hkx : IZR k < x).
    { replace (Rabs delta_t / IZR k / max_dt) with (x / IZR k) in G
        by (unfold x; field; lra).
      assert (Hxk : x = x / IZR k * IZR k) by (field; lra).
      rewrite Hxk. unfold Rgt in G. nra. }
    assert (IZR m <= IZR k) by (apply IZR_le; lia). lra.
  - apply Hgoal.
    assert (IZR m <= IZR k - 1).
    { rewrite <- minus_IZR. apply IZR_le. lia. }
    lra.
Qed.

(** A length that is [k] times [max_dt], [k] below [2^63], is taken in [k]
    steps of [max_dt]. *)
Lemma n_steps_of_multiple (max_dt delta_t : R) (k : Z) :
  0 < max_dt -> (1 <= k < 9223372036854775808)%Z ->
  Rabs delta_t = IZR k * max_dt ->
  n_steps_of max_dt delta_t = k /\
  Rabs (delta_t / IZR (n_steps_of max_dt delta_t)) = max_dt.
Proof.
  intros Hdt [Hk Hk63] Habs.
  assert (Hk' : 1 <= IZR k) by (apply IZR_le; lia).
  assert (Hx : Rabs (delta_t / max_dt) = IZR k).
  { rewrite Rabs_div_pos by assumption. rewrite Habs. field. lra. }
  assert (Hn : n_steps_of max_dt delta_t = k).
  { rewrite n_steps_of_fits.
    2: { split; [lra|]. rewrite Hx. apply IZR_lt. lia. }
    rewrite Hx, ZfloorZ.
    destruct (Z.eqb_spec k 0) as [E|E]; [lia|].
    destruct (Rgt_dec _ _) as [G|G]; [|reflexivity].
    exfalso. rewrite Rabs_div_IZR_pos in G by assumption.
    replace (Rabs delta_t / IZR k / max_dt) with 1 in G
      by (rewrite Habs; field; lra).
    lra. }
  split; [exact Hn|].
  rewrite Hn, Rabs_div_IZR_pos, Habs by assumption. field. lra.
Qed.

(** The count of an interval does not depend on its direction. *)
Lemma n_steps_of_opp (max_dt delta_t : R) :
  n_steps_of max_dt (- delta_t) = n_steps_of max_dt delta_t.
Proof.
  assert (Habs : forall c, Rabs (- delta_t / c) = Rabs (delta_t / c)).
  { intros c. replace (- delta_t / c) with (- (delta_t / c))
      by (unfold Rdiv; ring). apply Rabs_Ropp. }
  unfold n_steps_of, initial_n_steps. rewrite Habs.
  set (n := if Req_dec_T max_dt 0 then int64_min
            else astype_int (Rabs (delta_t / max_dt))).
  unfold correct_n_steps, exceeds_max_dt. rewrite Habs.
  destruct (Req_dec_T (- delta_t) 0) as [E|E],
           (Req_dec_T delta_t 0) as [E'|E']; try reflexivity; exfalso; lra.
Qed.

Lemma diff_app_last (l : list R) (a b : R) :
  diff (l ++ [a; b]) = diff (l ++ [a]) ++ [b - a].
Proof.
  induction l as [|x [|x' l] IH]; try reflexivity.
  change ((x :: x' :: l) ++ [a; b]) with (x :: (x' :: l) ++ [a; b]).
  change ((x :: x' :: l) ++ [a]) with (x :: (x' :: l) ++ [a]).
  change (diff (x :: (x' :: l) ++ [a; b]))
    with ((x' - x) :: diff ((x' :: l) ++ [a; b])).
  change (diff (x :: (x' :: l) ++ [a]))
    with ((x' - x) :: diff ((x' :: l) ++ [a])).
  now rewrite IH.
Qed.

Lemma diff_rev (l : list R) : diff (rev l) = map Ropp (rev (diff l)).
Proof.
  induction l as [|a [|b l] IH]; try reflexivity.
  change (diff (a :: b :: l)) with ((b - a) :: diff (b :: l)).
  change (rev (a :: b :: l)) with (rev (b :: l) ++ [a]).
  cbn [rev] in *. rewrite <- app_assoc. cbn [app].
  rewrite diff_app_last, IH, map_app. cbn [map]. do 2 f_equal. ring.
Qed.

Lemma diff_sum (l : list R) :
  fold_right Rplus 0 (diff l) = last l 0 - hd 0 l.
Proof.
  induction l as [|a [|b l] IH]; simpl; try ring.
  change (fold_right Rplus 0 (diff (b :: l))) with
    (fold_right Rplus 0 (match l with [] => [] | c :: _ => (c - b) :: diff l end)).
  change (match l with [] => [] | c :: _ => (c - b) :: diff l end)
    with (diff (b :: l)).
  rewrite IH. simpl. ring.
Qed.

Lemma get_fixed_step_sizes_inv merge_t_args t_span t_eval max_dt t_list h_list
    n_steps_list :
  get_fixed_step_sizes merge_t_args t_span t_eval max_dt =
    inr (t_list, h_list, n_steps_list) ->
  merge_t_args t_span t_eval = inr t_list /\
  h_list = map (fun delta_t => delta_t / IZR (n_steps_of max_dt delta_t)) (diff t_list) /\
  n_steps_list = map (n_steps_of max_dt) (diff t_list).
Proof.
  intros Hg. destruct (merge_t_args t_span t_eval) as [e|l] eqn:Hm.
  - rewrite (get_fixed_step_sizes_raises _ _ _ _ _ Hm) in Hg. discriminate.
  - rewrite (get_fixed_step_sizes_eq _ _ _ _ _ Hm) in Hg. now inversion Hg.
Qed.

(** The step size and the count of the interval of index [i]. *)
Lemma get_fixed_step_sizes_nth merge_t_args t_span t_eval max_dt t_list h_list
    n_steps_list (i : nat) (t_i t_i1 : R) :
  get_fixed_step_sizes merge_t_args t_span t_eval max_dt =
    inr (t_list, h_list, n_steps_list) ->
  nth_error t_list i = Some t_i -> nth_error t_list (S i) = Some t_i1 ->
  nth_error n_steps_list i = Some (n_steps_of max_dt (t_i1 - t_i)) /\
  nth_error h_list i =
    Some ((t_i1 - t_i) / IZR (n_steps_of max_dt (t_i1 - t_i))).
Proof.
  intros Hg Hi Hi1. apply get_fixed_step_sizes_inv in Hg. destruct Hg as (_ & -> & ->).
  rewrite !nth_error_map, (nth_error_diff _ _ _ _ Hi Hi1). split; reflexivity.
Qed.

Lemma zip_map_map {A B C : Type} (f : A -> B) (g : A -> C) (l : list A) :
  zip (map f l) (map g l) = map (fun a => (f a, g a)) l.
Proof. induction l as [|a l IH]; simpl; [|rewrite IH]; reflexivity. Qed.

(** The steps of a grid add up to the whole span: the sum of [n_i * h_i]
    over the intervals is the last breakpoint minus the first. *)
Theorem get_fixed_step_sizes_total merge_t_args t_span t_eval max_dt t_list :
  merge_t_args t_span t_eval = inr t_list ->
  exists h_list n_steps_list,
    get_fixed_step_sizes merge_t_args t_span t_eval max_dt =
      inr (t_list, h_list, n_steps_list) /\
    fold_right Rplus 0
      (map (fun '(h, n_steps) => IZR n_steps * h) (zip h_list n_steps_list)) =
    last t_list 0 - hd 0 t_list.
Proof.
  intros Hm. eexists; eexists; split; [apply get_fixed_step_sizes_eq; exact Hm|].
  rewrite zip_map_map, map_map, <- diff_sum. f_equal.
  rewrite <- (map_id (diff t_list)) at 2. apply map_ext.
  intros d. symmetry. apply step_size_exact.
Qed.

Lemma get_fixed_step_sizes_total_witness :
  exists h_list n_steps_list,
    get_fixed_step_sizes (fun _ _ => ret [1; 0.25; 0]) (1, 0) (Some [0.25]) 0.1 =
      inr ([1; 0.25; 0], h_list, n_steps_list) /\
    fold_right Rplus 0
      (map (fun '(h, n_steps) => IZR n_steps * h) (zip h_list n_steps_list)) =
    last [1; 0.25; 0] 0 - hd 0 [1; 0.25; 0].
Proof.
  apply (get_fixed_step_sizes_total (fun _ _ => ret [1; 0.25; 0])). reflexivity.
Defined.

(** No count smaller than the one returned would do: with fewer equal
    steps than [n_i], each step is longer than [max_dt]. (The steps of
    [n_i] itself may exceed [max_dt] within the tolerance of the
    correction.) *)
Theorem get_fixed_step_sizes_least merge_t_args t_span t_eval max_dt t_list h_list
    n_steps_list (i : nat) (t_i t_i1 : R) (n_i m : Z) :
  0 < max_dt ->
  get_fixed_step_sizes merge_t_args t_span t_eval max_dt =
    inr (t_list, h_list, n_steps_list) ->
  nth_error t_list i = Some t_i -> nth_error t_list (S i) = Some t_i1 ->
  nth_error n_steps_list i = Some n_i ->
  (1 <= m < n_i)%Z ->
  max_dt < Rabs (t_i1 - t_i) / IZR m.
Proof.
  intros Hdt Hg Hi Hi1 Hn Hm.
  destruct (get_fixed_step_sizes_nth _ _ _ _ _ _ _ _ _ _ Hg Hi Hi1) as [Hn' _].
  rewrite Hn' in Hn. inversion Hn; subst n_i.
  now apply n_steps_of_least.
Qed.

Lemma n_steps_of_example : n_steps_of 0.3 (1 - 0) = 4%Z.
Proof.
  rewrite n_steps_of_fits by (split; [lra|apply Rabs_def1; lra]).
  rewrite (Zfloor_eq 3); [|rewrite Rabs_pos_eq; simpl; lra].
  simpl. destruct (Rgt_dec _ _) as [G|G]; [reflexivity|].
  exfalso. apply G. rewrite Rabs_pos_eq; lra.
Qed.

Lemma get_fixed_step_sizes_least_witness : 0.3 < Rabs (1 - 0) / IZR 3.
Proof.
  apply (get_fixed_step_sizes_least merge_endpoints (0, 1) None 0.3 [0; 1]
           (map (fun delta_t => delta_t / IZR (n_steps_of 0.3 delta_t)) (diff [0; 1]))
           (map (n_steps_of 0.3) (diff [0; 1])) 0 0 1 4 3).
  - lra.
  - apply get_fixed_step_sizes_eq. reflexivity.
  - reflexivity.
  - reflexivity.
  - cbn [diff map nth_error]. now rewrite n_steps_of_example.
  - lia.
Defined.

(** An interval whose length is [k] times [max_dt], for an integer [k]
    from 1 to below [2^63], is taken in exactly [k] steps, each of
    magnitude [max_dt]. *)
Theorem get_fixed_step_sizes_multiple merge_t_args t_span t_eval max_dt t_list
    h_list n_steps_list (i : nat) (t_i t_i1 : R) (k : Z) :
  0 < max_dt ->
  get_fixed_step_sizes merge_t_args t_span t_eval max_dt =
    inr (t_list, h_list, n_steps_list) ->
  nth_error t_list i = Some t_i -> nth_error t_list (S i) = Some t_i1 ->
  (1 <= k < 9223372036854775808)%Z -> Rabs (t_i1 - t_i) = IZR k * max_dt ->
  nth_error n_steps_list i = Some k /\
  exists h_i, nth_error h_list i = Some h_i /\ Rabs h_i = max_dt.
Proof.
  intros Hdt Hg Hi Hi1 Hk Habs.
  destruct (get_fixed_step_sizes_nth _ _ _ _ _ _ _ _ _ _ Hg Hi Hi1) as [Hn Hh].
  destruct (n_steps_of_multiple max_dt (t_i1 - t_i) k Hdt Hk Habs) as [E Eh].
  split; [now rewrite Hn, E|].
  eexists; split; [exact Hh|exact Eh].
Qed.

Lemma get_fixed_step_sizes_multiple_witness :
  nth_error (map (n_steps_of 0.01) (diff [0; 1])) 0 = Some 100%Z /\
  exists h_i,
    nth_error (map (fun delta_t => delta_t / IZR (n_steps_of 0.01 delta_t))
                   (diff [0; 1])) 0 = Some h_i /\
    Rabs h_i = 0.01.
Proof.
  apply (get_fixed_step_sizes_multiple merge_endpoints (0, 1) None 0.01 [0; 1]
           _ _ 0 0 1 100).
  - lra.
  - apply get_fixed_step_sizes_eq. reflexivity.
  - reflexivity.
  - reflexivity.
  - lia.
  - rewrite Rabs_pos_eq; lra.
Defined.

(** An interval shorter than [max_dt], a repeated breakpoint included, is
    taken in one step, of the size of the interval. *)
Theorem get_fixed_step_sizes_short merge_t_args t_span t_eval max_dt t_list
    h_list n_steps_list (i : nat) (t_i t_i1 : R) :
  0 < max_dt ->
  get_fixed_step_sizes merge_t_args t_span t_eval max_dt =
    inr (t_list, h_list, n_steps_list) ->
  nth_error t_list i = Some t_i -> nth_error t_list (S i) = Some t_i1 ->
  Rabs (t_i1 - t_i) < max_dt ->
  nth_error n_steps_list i = Some 1%Z /\
  exists h_i, nth_error h_list i = Some h_i /\ h_i = t_i1 - t_i.
Proof.
  intros Hdt Hg Hi Hi1 Hlt.
  destruct (get_fixed_step_sizes_nth _ _ _ _ _ _ _ _ _ _ Hg Hi Hi1) as [Hn Hh].
  rewrite (n_steps_of_short _ _ Hdt Hlt) in Hn, Hh.
  split; [exact Hn|]. eexists; split; [exact Hh|]. field.
Qed.

Lemma get_fixed_step_sizes_short_witness :
  nth_error (map (n_steps_of 0.3) (diff [0.5; 0.5])) 0 = Some 1%Z /\
  exists h_i,
    nth_error (map (fun delta_t => delta_t / IZR (n_steps_of 0.3 delta_t))
                   (diff [0.5; 0.5])) 0 = Some h_i /\
    h_i = 0.5 - 0.5.
Proof.
  apply (get_fixed_step_sizes_short merge_endpoints (0.5, 0.5) None 0.3 [0.5; 0.5]
           _ _ 0 0.5 0.5).
  - lra.
  - apply get_fixed_step_sizes_eq. reflexivity.
  - reflexivity.
  - reflexivity.
  - rewrite Rabs_pos_eq; lra.
Defined.

(** Backward integration uses the grid of forward integration read in the
    other direction: for the breakpoints in reverse order the counts are
    those of the forward grid reversed, and the step sizes the reversed
    ones with the opposite sign. *)
Theorem get_fixed_step_sizes_reverse merge_t_args t_span t_eval t_span' t_eval'
    max_dt t_list :
  merge_t_args t_span t_eval = inr t_list ->
  merge_t_args t_span' t_eval' = inr (rev t_list) ->
  exists h_list n_steps_list,
    get_fixed_step_sizes merge_t_args t_span t_eval max_dt =
      inr (t_list, h_list, n_steps_list) /\
    get_fixed_step_sizes merge_t_args t_span' t_eval' max_dt =
      inr (rev t_list, map Ropp (rev h_list), rev n_steps_list).
Proof.
  intros Hm Hm'. eexists; eexists; split; [apply get_fixed_step_sizes_eq; exact Hm|].
  rewrite (get_fixed_step_sizes_eq _ _ _ _ _ Hm'). do 2 f_equal.
  - f_equal. rewrite diff_rev, <- !map_rev, !map_map. apply map_ext.
    intros d. rewrite n_steps_of_opp. unfold Rdiv. ring.
  - rewrite diff_rev, <- map_rev, map_map. apply map_ext.
    intros d. apply n_steps_of_opp.
Qed.

Lemma get_fixed_step_sizes_reverse_witness :
  exists h_list n_steps_list,
    get_fixed_step_sizes merge_endpoints (0, 1) None 0.3 =
      inr ([0; 1], h_list, n_steps_list) /\
    get_fixed_step_sizes merge_endpoints (1, 0) None 0.3 =
      inr (rev [0; 1], map Ropp (rev h_list), rev n_steps_list).
Proof.
  apply (get_fixed_step_sizes_reverse merge_endpoints (0, 1) None (1, 0) None 0.3);
    reflexivity.
Defined.

(** ** Further properties of the templates *)

Lemma zip_app {A B : Type} (l1 l2 : list A) (l1' l2' : list B) :
  length l1 = length l1' ->
  zip (l1 ++ l2) (l1' ++ l2') = zip l1 l1' ++ zip l2 l2'.
Proof.
  revert l1'; induction l1 as [|a l1 IH]; intros [|b l1'] Hlen; simpl in *;
    try discriminate; [reflexivity|].
  f_equal. apply IH. lia.
Qed.

Lemma zip_length {A B : Type} (l : list A) (l' : list B) :
  length (zip l l') = Nat.min (length l) (length l').
Proof.
  revert l'; induction l as [|a l IH]; intros [|b l']; simpl; try reflexivity.
  now rewrite IH.
Qed.

Lemma zip_truncate_l {A B : Type} (l1 l2 : list A) (l' : list B) :
  length l1 = length l' -> zip (l1 ++ l2) l' = zip l1 l'.
Proof.
  revert l'; induction l1 as [|a l1 IH]; intros [|b l'] Hlen; simpl in *;
    try discriminate.
  - now destruct l2.
  - f_equal. apply IH. lia.
Qed.

Lemma diff_cons2 (x x' : R) (l : list R) :
  diff (x :: x' :: l) = (x' - x) :: diff (x' :: l).
Proof. reflexivity. Qed.

Lemma diff_app_shared (l1 l2 : list R) (a : R) :
  diff (l1 ++ a :: l2) = diff (l1 ++ [a]) ++ diff (a :: l2).
Proof.
  induction l1 as [|x l1 IH]; [reflexivity|].
  destruct l1 as [|x' l1].
  - cbn [app]. now rewrite !diff_cons2.
  - cbn [app] in *. now rewrite !diff_cons2, IH.
Qed.

Section SequentialLoop.

Context `{ArrayOps} {F : Type}.
Variable take_step : F -> R -> Arr -> R -> Arr.
Variable rhs_func : F.

(** The loop appends one value per interval to the values it starts with. *)
Lemma integrate_fold_length (d : Arr) (xs : list (R * R * Z)) (ys : list Arr) :
  length
    (fold_left
       (fun ys '(current_t, h, n_steps) =>
          ys ++ [take_steps take_step rhs_func (Z.to_nat n_steps) current_t
                   (last ys d) h]) xs ys) =
  (length ys + length xs)%nat.
Proof.
  revert ys; induction xs as [|[[current_t h] n_steps] xs IH]; intros ys; simpl.
  - lia.
  - rewrite IH, length_app. simpl. lia.
Qed.

Lemma integrate_fold_prefix (d : Arr) (xs : list (R * R * Z)) (ys : list Arr) :
  exists more,
    fold_left
      (fun ys '(current_t, h, n_steps) =>
         ys ++ [take_steps take_step rhs_func (Z.to_nat n_steps) current_t
                  (last ys d) h]) xs ys = ys ++ more.
Proof.
  revert ys; induction xs as [|[[current_t h] n_steps] xs IH]; intros ys; simpl.
  - exists []. now rewrite app_nil_r.
  - destruct (IH (ys ++ [take_steps take_step rhs_func (Z.to_nat n_steps) current_t
                           (last ys d) h])) as [more Hmore].
    rewrite Hmore, <- app_assoc. eexists. reflexivity.
Qed.

(** The values after the ones the loop starts with depend on these only
    through the last of them. *)
Lemma integrate_fold_restart (d d' : Arr) (xs : list (R * R * Z)) (ys : list Arr) :
  ys <> [] ->
  fold_left
    (fun ys '(current_t, h, n_steps) =>
       ys ++ [take_steps take_step rhs_func (Z.to_nat n_steps) current_t
                (last ys d) h]) xs ys =
  ys ++ tl (fold_left
              (fun ys '(current_t, h, n_steps) =>
                 ys ++ [take_steps take_step rhs_func (Z.to_nat n_steps) current_t
                          (last ys d') h]) xs [last ys d]).
Proof.
  revert d d' ys; induction xs as [|[[current_t h] n_steps] xs IH]; intros d d' ys Hys.
  - simpl. now rewrite app_nil_r.
  - cbn [fold_left].
    rewrite (IH d d') by (intros E; apply app_eq_nil in E; destruct E; discriminate).
    rewrite last_last.
    rewrite (IH d' d' ([last ys d] ++ _)) by discriminate.
    rewrite last_last. cbn [last app tl]. now rewrite <- app_assoc.
Qed.

Lemma integrate_intervals_length (y0 : Arr) (t_list h_list : list R)
    (n_steps_list : list Z) :
  length (integrate_intervals take_step rhs_func y0 t_list h_list n_steps_list) =
  S (length (zip3 t_list h_list n_steps_list)).
Proof. unfold integrate_intervals. cbv zeta. now rewrite integrate_fold_length. Qed.

Lemma integrate_intervals_hd (y0 : Arr) (t_list h_list : list R)
    (n_steps_list : list Z) :
  hd_error (integrate_intervals take_step rhs_func y0 t_list h_list n_steps_list) =
  Some y0.
Proof.
  unfold integrate_intervals. cbv zeta.
  destruct (integrate_fold_prefix y0 (zip3 t_list h_list n_steps_list) [y0])
    as [more ->]. reflexivity.
Qed.

End SequentialLoop.

Lemma grid_zip3_length (max_dt : R) (t_list : list R) :
  length (zip3 t_list
            (map (fun delta_t => delta_t / IZR (n_steps_of max_dt delta_t)) (diff t_list))
            (map (n_steps_of max_dt) (diff t_list))) =
  (length t_list - 1)%nat.
Proof.
  unfold zip3. rewrite !zip_length, !length_map, diff_length. lia.
Qed.

(** The sequential template hands [trim_t_results] a trajectory aligned
    with the breakpoints: one value per breakpoint, the first one [y0]. *)
Theorem fixed_step_solver_template_aligned `{ArrayOps} {F : Type}
    merge_t_args trim_t_results (take_step : F -> R -> Arr -> R -> Arr)
    (rhs_func : F) t_span y0 max_dt t_eval t_list :
  merge_t_args t_span t_eval = inr t_list -> t_list <> [] ->
  exists ys,
    fixed_step_solver_template merge_t_args trim_t_results
      take_step rhs_func t_span y0 max_dt t_eval =
    trim_t_results (mkOdeResult _ t_list ys) t_eval /\
    length ys = length t_list /\ hd_error ys = Some y0.
Proof.
  intros Hm Hne. unfold fixed_step_solver_template.
  rewrite (get_fixed_step_sizes_eq _ _ _ _ _ Hm). simpl bind.
  eexists; split; [reflexivity|]. split.
  - rewrite integrate_intervals_length, grid_zip3_length.
    destruct t_list; [contradiction|]. simpl. lia.
  - apply integrate_intervals_hd.
Qed.

Lemma fixed_step_solver_template_aligned_witness :
  exists ys,
    RK4_solver merge_endpoints Complex2.trim_nothing
      (fun t y => Complex2.ramp_generator t <@> y) (0, 1) Complex2.vector_e0 0.3 None =
    Complex2.trim_nothing (mkOdeResult _ [0; 1] ys) None /\
    length ys = length [0; 1] /\ hd_error ys = Some Complex2.vector_e0.
Proof.
  apply (fixed_step_solver_template_aligned merge_endpoints Complex2.trim_nothing
           RK4_take_step (fun t y => Complex2.ramp_generator t <@> y)
           (0, 1) Complex2.vector_e0 0.3 None [0; 1]).
  - reflexivity.
  - discriminate.
Defined.

Lemma zip3_app_shared {B C : Type} (l1 l2 : list R) (a : R) (h1 h2 : list B)
    (n1 n2 : list C) :
  length h1 = length l1 -> length n1 = length l1 ->
  zip3 (l1 ++ a :: l2) (h1 ++ h2) (n1 ++ n2) =
  zip3 (l1 ++ [a]) h1 n1 ++ zip3 (a :: l2) h2 n2.
Proof.
  intros Hh Hn. unfold zip3.
  rewrite (zip_app l1 (a :: l2) h1 h2) by lia.
  rewrite zip_app by (rewrite zip_length; lia).
  now rewrite (zip_truncate_l l1 [a] h1) by lia.
Qed.

(** Restarting: integrating over a grid is integrating up to one of its
    breakpoints and then, from the value reached there, over the rest. The
    trajectories are those handed to [trim_t_results]. *)
Theorem fixed_step_solver_template_restart `{ArrayOps} {F : Type}
    merge_t_args trim_t_results (take_step : F -> R -> Arr -> R -> Arr)
    (rhs_func : F) t_span t_span1 t_span2 y0 max_dt t_eval t_eval1 t_eval2
    (l1 l2 : list R) (t_k : R) :
  merge_t_args t_span t_eval = inr (l1 ++ t_k :: l2) ->
  merge_t_args t_span1 t_eval1 = inr (l1 ++ [t_k]) ->
  merge_t_args t_span2 t_eval2 = inr (t_k :: l2) ->
  exists ys1 ys2,
    length ys1 = length (l1 ++ [t_k]) /\ hd_error ys1 = Some y0 /\
    length ys2 = length (t_k :: l2) /\ hd_error ys2 = Some (last ys1 y0) /\
    fixed_step_solver_template merge_t_args trim_t_results
      take_step rhs_func t_span1 y0 max_dt t_eval1 =
      trim_t_results (mkOdeResult _ (l1 ++ [t_k]) ys1) t_eval1 /\
    fixed_step_solver_template merge_t_args trim_t_results
      take_step rhs_func t_span2 (last ys1 y0) max_dt t_eval2 =
      trim_t_results (mkOdeResult _ (t_k :: l2) ys2) t_eval2 /\
    fixed_step_solver_template merge_t_args trim_t_results
      take_step rhs_func t_span y0 max_dt t_eval =
      trim_t_results (mkOdeResult _ (l1 ++ t_k :: l2) (ys1 ++ tl ys2)) t_eval.
Proof.
  intros Hm Hm1 Hm2.
  set (h_of := fun delta_t => delta_t / IZR (n_steps_of max_dt delta_t)).
  set (ys1 := integrate_intervals take_step rhs_func y0 (l1 ++ [t_k])
                (map h_of (diff (l1 ++ [t_k])))
                (map (n_steps_of max_dt) (diff (l1 ++ [t_k])))).
  exists ys1,
    (integrate_intervals take_step rhs_func (last ys1 y0) (t_k :: l2)
       (map h_of (diff (t_k :: l2))) (map (n_steps_of max_dt) (diff (t_k :: l2)))).
  unfold fixed_step_solver_template.
  rewrite (get_fixed_step_sizes_eq _ _ _ _ _ Hm),
    (get_fixed_step_sizes_eq _ _ _ _ _ Hm1), (get_fixed_step_sizes_eq _ _ _ _ _ Hm2).
  simpl bind.
  split.
  { unfold ys1, h_of. rewrite integrate_intervals_length, grid_zip3_length.
    rewrite length_app. simpl. lia. }
  split; [apply integrate_intervals_hd|].
  split.
  { unfold h_of. rewrite integrate_intervals_length, grid_zip3_length.
    simpl. lia. }
  split; [apply integrate_intervals_hd|].
  split; [reflexivity|]. split; [reflexivity|].
  do 2 f_equal. unfold ys1, integrate_intervals. cbv zeta.
  fold h_of.
  rewrite diff_app_shared, !map_app.
  rewrite zip3_app_shared
    by (rewrite length_map, diff_length, length_app; simpl; lia).
  rewrite fold_left_app.
  apply integrate_fold_restart.
  destruct (integrate_fold_prefix take_step rhs_func y0
              (zip3 (l1 ++ [t_k]) (map h_of (diff (l1 ++ [t_k])))
                 (map (n_steps_of max_dt) (diff (l1 ++ [t_k])))) [y0]) as [more ->].
  discriminate.
Qed.

Lemma fixed_step_solver_template_restart_witness :
  let rhs : R -> @Arr Complex2.ops -> @Arr Complex2.ops :=
    fun t y => Complex2.ramp_generator t <@> y in
  let y0 := Complex2.vector_e0 in
  exists ys1 ys2,
    length ys1 = length ([0] ++ [0.5]) /\ hd_error ys1 = Some y0 /\
    length ys2 = length [0.5; 1] /\ hd_error ys2 = Some (last ys1 y0) /\
    RK4_solver merge_around trim_endpoints rhs (0, 0.5) y0 0.3 None =
      trim_endpoints (mkOdeResult _ ([0] ++ [0.5]) ys1) None /\
    RK4_solver merge_around trim_endpoints rhs (0.5, 1) (last ys1 y0) 0.3 None =
      trim_endpoints (mkOdeResult _ [0.5; 1] ys2) None /\
    RK4_solver merge_around trim_endpoints rhs (0, 1) y0 0.3 (Some [0.5]) =
      trim_endpoints (mkOdeResult _ ([0] ++ 0.5 :: [1]) (ys1 ++ tl ys2))
        (Some [0.5]).
Proof.
  intros rhs y0.
  apply (fixed_step_solver_template_restart merge_around trim_endpoints
           RK4_take_step rhs (0, 1) (0, 0.5) (0.5, 1) y0 0.3 (Some [0.5]) None None
           [0] [1] 0.5); reflexivity.
Defined.

(** ** The solvers against each other *)

Section TemplateAgreement.

Context `{ArrayOps}.
Variable merge_t_args : R * R -> option (list R) -> result (list R).
Variable trim_t_results : OdeResult -> option (list R) -> result OdeResult.

(** The loop sees a step rule only through the values it returns. *)
Lemma take_steps_ext {F F' : Type} (take_step : F -> R -> Arr -> R -> Arr)
    (take_step' : F' -> R -> Arr -> R -> Arr) (rhs_func : F) (rhs_func' : F') :
  (forall t y h, take_step rhs_func t y h = take_step' rhs_func' t y h) ->
  forall n t y h,
    take_steps take_step rhs_func n t y h = take_steps take_step' rhs_func' n t y h.
Proof.
  intros Hext n; induction n as [|n IH]; intros t y h; simpl; [reflexivity|].
  now rewrite Hext, IH.
Qed.

Lemma fixed_step_solver_template_ext {F F' : Type}
    (take_step : F -> R -> Arr -> R -> Arr)
    (take_step' : F' -> R -> Arr -> R -> Arr) (rhs_func : F) (rhs_func' : F')
    t_span y0 max_dt t_eval :
  (forall t y h, take_step rhs_func t y h = take_step' rhs_func' t y h) ->
  fixed_step_solver_template merge_t_args trim_t_results
    take_step rhs_func t_span y0 max_dt t_eval =
  fixed_step_solver_template merge_t_args trim_t_results
    take_step' rhs_func' t_span y0 max_dt t_eval.
Proof.
  intros Hext. unfold fixed_step_solver_template.
  destruct (get_fixed_step_sizes merge_t_args t_span t_eval max_dt)
    as [e|[[t_list h_list] n_steps_list]]; [reflexivity|].
  simpl bind. do 2 f_equal. unfold integrate_intervals.
  generalize (zip3 t_list h_list n_steps_list), [y0].
  intros xs; induction xs as [|[[current_t h] n_steps] xs IH]; intros ys;
    [reflexivity|].
  cbn [fold_left]. rewrite (take_steps_ext _ _ _ _ Hext). apply IH.
Qed.

(** On a grid of float times with an interval the JAX template returns
    what the plain template returns. *)
Lemma template_jax_agrees {F : Type} (take_step : F -> R -> Arr -> R -> Arr)
    (rhs_func : F) t_span y0 max_dt t_eval :
  (forall t_list, merge_t_args t_span t_eval = inr t_list -> (2 <= length t_list)%nat) ->
  fixed_step_solver_template_jax merge_t_args trim_t_results
    take_step rhs_func t_span float_dtype y0 max_dt t_eval =
  fixed_step_solver_template merge_t_args trim_t_results
    take_step rhs_func t_span y0 max_dt t_eval.
Proof.
  intros Hlen.
  unfold fixed_step_solver_template_jax, fixed_step_solver_template.
  destruct (merge_t_args t_span t_eval) as [e|t_list] eqn:Hm.
  - now rewrite (get_fixed_step_sizes_raises _ _ _ _ _ Hm).
  - rewrite (get_fixed_step_sizes_eq _ _ _ _ _ Hm). simpl bind.
    specialize (Hlen t_list eq_refl).
    set (n_steps_list := map (n_steps_of max_dt) (diff t_list)).
    set (h_list := map _ (diff t_list)).
    destruct (array_max n_steps_list) as [e|max_steps] eqn:Hmax.
    + exfalso. destruct t_list as [|a [|b l]]; simpl in Hlen; try lia.
      discriminate.
    + simpl bind. f_equal. f_equal.
      unfold integrate_intervals, zip3.
      rewrite zip_removelast
        by (unfold h_list; rewrite length_map, diff_length; lia).
      rewrite (integrate_intervals_scan _ _ max_steps).
      * reflexivity.
      * intros x Hx. apply (array_max_le _ _ Hmax). now apply In_zip_r in Hx.
Qed.

End TemplateAgreement.





(** [jax_RK4_parallel_solver] against [RK4_solver]: when the last axis of
    [y0] has the dimension of the generator, the merged grid has an
    interval and its counts fit, the parallel solver on [G] returns what
    [RK4_solver] returns on the right-hand side [G(t) @ y]. *)
Theorem jax_RK4_parallel_solver_agrees `{ArrayLaws} merge_t_args trim_t_results
    (generator : R -> Mat) t_span y0 max_dt t_eval :
  shape_last y0 = dim ->
  (forall t_list, merge_t_args t_span t_eval = inr t_list -> (2 <= length t_list)%nat) ->
  (forall t_list, merge_t_args t_span t_eval = inr t_list ->
                  Forall (fits_int64 max_dt) (diff t_list)) ->
  jax_RK4_parallel_solver merge_t_args trim_t_results
    generator t_span y0 max_dt t_eval =
  RK4_solver merge_t_args trim_t_results
    (fun t y => generator t <@> y) t_span y0 max_dt t_eval.
Proof.
  intros Hdim Hlen Hfits. unfold jax_RK4_parallel_solver, RK4_solver. cbv zeta.
  rewrite template_parallel_agrees by assumption.
  apply fixed_step_solver_template_ext. intros t y h. unfold take_step_of.
  now apply jax_RK4_parallel_take_step_linear.
Qed.

Lemma jax_RK4_parallel_solver_agrees_witness :
  jax_RK4_parallel_solver merge_around trim_endpoints
    Complex2.ramp_generator (0, 2) Complex2.vector_e0 0.3 (Some [0.5]) =
  RK4_solver merge_around trim_endpoints
    (fun t y => Complex2.ramp_generator t <@> y) (0, 2) Complex2.vector_e0 0.3
    (Some [0.5]).
Proof.
  apply (@jax_RK4_parallel_solver_agrees Complex2.ops complex2_laws).
  - reflexivity.
  - intros t_list Hm. inversion Hm. simpl. lia.
  - intros t_list Hm. inversion Hm. cbn [diff app].
    repeat constructor; try lra; apply Rabs_def1; lra.
Defined.

(** [jax_lanczos_diag_solver] against [lanczos_diag_solver]: when the two
    Lanczos exponentials agree at the chosen [k_dim], and the merged grid
    has an interval and float times, the two solvers return the same
    result. *)
Theorem jax_lanczos_diag_solver_agrees `{ArrayOps} merge_t_args trim_t_results
    (lanczos_expm jax_lanczos_expm : Mat -> Arr -> Z -> R -> Arr)
    (generator : R -> Mat) t_span y0 max_dt (k_dim : Z) t_eval :
  (forall A y h, jax_lanczos_expm A y k_dim h = lanczos_expm A y k_dim h) ->
  (forall t_list, merge_t_args t_span t_eval = inr t_list -> (2 <= length t_list)%nat) ->
  jax_lanczos_diag_solver merge_t_args trim_t_results jax_lanczos_expm
    generator t_span float_dtype y0 max_dt k_dim t_eval =
  lanczos_diag_solver merge_t_args trim_t_results lanczos_expm
    generator t_span y0 max_dt k_dim t_eval.
Proof.
  intros Hsame Hlen. unfold jax_lanczos_diag_solver, lanczos_diag_solver.
  rewrite template_jax_agrees by exact Hlen.
  apply fixed_step_solver_template_ext. intros t y h.
  unfold jax_lanczos_take_step, lanczos_take_step. apply Hsame.
Qed.

Lemma jax_lanczos_diag_solver_agrees_witness :
  let lanczos_expm : @Mat Complex2.ops -> @Arr Complex2.ops -> Z -> R -> @Arr Complex2.ops :=
    fun A y _ h => Complex2.expm_order1 (h [*] A) <@> y in
  jax_lanczos_diag_solver merge_around trim_endpoints lanczos_expm
    Complex2.ramp_generator (0, 2) float_dtype Complex2.vector_e0 0.3 2
    (Some [0.5]) =
  lanczos_diag_solver merge_around trim_endpoints lanczos_expm
    Complex2.ramp_generator (0, 2) Complex2.vector_e0 0.3 2 (Some [0.5]).
Proof.
  cbv zeta. apply (@jax_lanczos_diag_solver_agrees Complex2.ops).
  - reflexivity.
  - intros t_list Hm. inversion Hm. simpl. lia.
Defined.

(** [lanczos_diag_solver] against [scipy_expm_solver]: when the Lanczos
    exponential at the chosen [k_dim] is the action of the exponential
    itself, [lanczos_expm(A, y, k_dim, h) = expm(h A) @ y], the Lanczos
    solver returns what the exponential solver returns at Magnus order 1. *)
Theorem lanczos_diag_solver_exact_krylov `{ArrayOps} merge_t_args trim_t_results
    (lanczos_expm : Mat -> Arr -> Z -> R -> Arr) (expm_func : Mat -> Mat)
    (generator : R -> Mat) t_span y0 max_dt (k_dim : Z) t_eval :
  (forall A y h, lanczos_expm A y k_dim h = expm_func (h [*] A) <@> y) ->
  lanczos_diag_solver merge_t_args trim_t_results lanczos_expm
    generator t_span y0 max_dt k_dim t_eval =
  scipy_expm_solver merge_t_args trim_t_results expm_func
    generator t_span y0 max_dt t_eval 1.
Proof.
  intros Hexact. unfold lanczos_diag_solver, scipy_expm_solver.
  change (get_exponential_take_step 1 expm_func false)
    with (@inr exn _ (take_step_of (magnus1_propagator expm_func))).
  simpl bind. apply fixed_step_solver_template_ext. intros t y h.
  unfold lanczos_take_step, take_step_of, magnus1_propagator. cbv zeta.
  apply Hexact.
Qed.

Lemma lanczos_diag_solver_exact_krylov_witness :
  let lanczos_expm : @Mat Complex2.ops -> @Arr Complex2.ops -> Z -> R -> @Arr Complex2.ops :=
    fun A y _ h => Complex2.expm_order1 (h [*] A) <@> y in
  lanczos_diag_solver merge_around trim_endpoints lanczos_expm
    Complex2.ramp_generator (0, 1) Complex2.vector_e0 0.3 2 (Some [0.5]) =
  scipy_expm_solver merge_around trim_endpoints Complex2.expm_order1
    Complex2.ramp_generator (0, 1) Complex2.vector_e0 0.3 (Some [0.5]) 1.
Proof.
  cbv zeta. apply (@lanczos_diag_solver_exact_krylov Complex2.ops).
  reflexivity.
Defined.

(** ** The exponential solvers as propagators *)

Section Superposition.

Context `{ArrayLaws}.
Variable propagator : (R -> Mat) -> R -> R -> Mat.
Variable generator : R -> Mat.

(** The steps of an interval amount to one matrix, whatever their count:
    the identity when no step is taken. *)
Lemma take_steps_propagator (n : nat) (t h : R) :
  exists P : Mat,
    forall y, take_steps (take_step_of propagator) generator n t y h = P <@> y.
Proof.
  revert t; induction n as [|n IH]; intros t.
  - exists eye. intros y. simpl. now rewrite matmul_arr_eye.
  - destruct (IH (t + h)) as [P HP].
    exists (P [@] propagator generator t h). intros y.
    simpl. rewrite HP. unfold take_step_of. now rewrite matmul_arr_matmul.
Qed.

Lemma last_map_apply (Ps : list Mat) (y0 : Arr) :
  last (map (fun P => P <@> y0) Ps) y0 = last Ps eye <@> y0.
Proof.
  induction Ps as [|P [|P' Ps] IH]; simpl in *.
  - now rewrite matmul_arr_eye.
  - reflexivity.
  - exact IH.
Qed.

(** The loop of the sequential template keeps the form [P @ y0] of the
    values, with matrices [P] that do not depend on [y0]. *)
Lemma integrate_fold_propagators (xs : list (R * R * Z)) (Ps : list Mat) :
  exists Qs : list Mat,
    length Qs = length xs /\
    forall y0,
      fold_left
        (fun ys '(current_t, h, n_steps) =>
           let y := last ys y0 in
           let y := take_steps (take_step_of propagator) generator
                      (Z.to_nat n_steps) current_t y h in
           ys ++ [y]) xs (map (fun P => P <@> y0) Ps) =
      map (fun P => P <@> y0) (Ps ++ Qs).
Proof.
  revert Ps; induction xs as [|[[current_t h] n_steps] xs IH]; intros Ps.
  - exists []. split; [reflexivity|]. intros y0. now rewrite app_nil_r.
  - destruct (take_steps_propagator (Z.to_nat n_steps) current_t h) as [P HP].
    destruct (IH (Ps ++ [P [@] last Ps eye])) as (Qs & Hlen & HQs).
    exists ((P [@] last Ps eye) :: Qs). split; [simpl; now rewrite Hlen|].
    intros y0. cbn [fold_left]. cbv zeta.
    rewrite HP, last_map_apply, <- matmul_arr_matmul.
    replace (map (fun P0 => P0 <@> y0) Ps ++ [P [@] last Ps eye <@> y0])
      with (map (fun P0 => P0 <@> y0) (Ps ++ [P [@] last Ps eye]))
      by (now rewrite map_app).
    rewrite HQs, <- app_assoc. reflexivity.
Qed.

End Superposition.

(** The trajectory of [scipy_expm_solver] is linear in the initial state
    through matrices that do not depend on it: for a supported order and
    results returned untrimmed there is one list of matrices [Ps], the
    same for every [y0], such that the solver returns the values
    [P @ y0] for [P] in [Ps] at the breakpoints. *)
Theorem scipy_expm_solver_superposition `{ArrayLaws} merge_t_args trim_t_results
    (expm_func : Mat -> Mat) (generator : R -> Mat) t_span max_dt t_eval
    (magnus_order : Z) (t_list : list R) :
  magnus_order = 1%Z \/ magnus_order = 2%Z \/ magnus_order = 3%Z ->
  merge_t_args t_span t_eval = inr t_list ->
  (forall results, trim_t_results results t_eval = inr results) ->
  exists Ps : list Mat,
    length Ps = S (length t_list - 1) /\
    forall y0,
      scipy_expm_solver merge_t_args trim_t_results expm_func
        generator t_span y0 max_dt t_eval magnus_order =
      inr (mkOdeResult _ t_list (map (fun P => P <@> y0) Ps)).
Proof.
  intros Hord Hm Htrim.
  destruct (get_exponential_take_step_supported magnus_order expm_func Hord)
    as (propagator & _ & Ht).
  set (h_list := map (fun delta_t => delta_t / IZR (n_steps_of max_dt delta_t))
                     (diff t_list)).
  set (n_steps_list := map (n_steps_of max_dt) (diff t_list)).
  destruct (integrate_fold_propagators propagator generator
              (zip3 t_list h_list n_steps_list) [eye]) as (Qs & Hlen & HQs).
  exists ([eye] ++ Qs). split.
  - cbn [app length]. f_equal. rewrite Hlen. apply grid_zip3_length.
  - intros y0. unfold scipy_expm_solver. rewrite Ht. simpl bind.
    unfold fixed_step_solver_template.
    rewrite (get_fixed_step_sizes_eq _ _ _ _ _ Hm). simpl bind.
    rewrite Htrim. do 2 f_equal.
    fold h_list n_steps_list. unfold integrate_intervals.
    rewrite <- HQs. cbn [map]. now rewrite matmul_arr_eye.
Qed.

Lemma scipy_expm_solver_superposition_witness :
  exists Ps : list (@Mat Complex2.ops),
    length Ps = 2%nat /\
    forall y0,
      scipy_expm_solver merge_endpoints Complex2.trim_nothing Complex2.expm_order1
        Complex2.ramp_generator (0, 1) y0 0.3 None 2 =
      inr (mkOdeResult _ [0; 1] (map (fun P => P <@> y0) Ps)).
Proof.
  apply (@scipy_expm_solver_superposition Complex2.ops complex2_laws
           merge_endpoints Complex2.trim_nothing Complex2.expm_order1
           Complex2.ramp_generator (0, 1) 0.3 None 2 [0; 1]).
  - right; left; reflexivity.
  - reflexivity.
  - reflexivity.
Defined.

(** A constant generator under Magnus order 1, at every breakpoint: when
    [expm_func] is additive on the multiples of [G] and on every interval
    [|delta| / max_dt] is below [2^63] ([max_dt] not zero), the trajectory
    handed to [trim_t_results] has [y0] at the first breakpoint [t_0] and
    [exp((t_i - t_0) G)] applied to [y0] at every later breakpoint [t_i],
    in either direction of time. *)
Theorem magnus1_constant_generator_trajectory `{ArrayLaws} merge_t_args
    trim_t_results (expm_func : Mat -> Mat) (G : Mat) (t_span : R * R)
    (y0 : Arr) (max_dt : R) (t_eval : option (list R)) (t_0 : R)
    (rest : list R) :
  (forall a b : R,
     expm_func (a [*] G) [@] expm_func (b [*] G) = expm_func ((a + b) [*] G)) ->
  merge_t_args t_span t_eval = inr (t_0 :: rest) ->
  Forall (fits_int64 max_dt) (diff (t_0 :: rest)) ->
  scipy_expm_solver merge_t_args trim_t_results expm_func
    (fun _ => G) t_span y0 max_dt t_eval 1 =
  trim_t_results
    (mkOdeResult _ (t_0 :: rest)
       (y0 :: map (fun t_i => expm_func ((t_i - t_0) [*] G) <@> y0) rest))
    t_eval.
Proof.
  intros Hexp Hm Hfits.
  assert (Hts : get_exponential_take_step 1 expm_func false =
                inr (take_step_of (magnus1_propagator expm_func))) by reflexivity.
  unfold scipy_expm_solver. rewrite Hts. simpl bind.
  unfold fixed_step_solver_template.
  rewrite (get_fixed_step_sizes_eq _ _ _ _ _ Hm). cbn [bind].
  do 2 f_equal. unfold integrate_intervals. cbv zeta.
  exact (integrate_intervals_constant expm_func G Hexp max_dt y0 rest t_0 [y0]
           Hfits).
Qed.

Lemma magnus1_constant_generator_trajectory_witness :
  scipy_expm_solver merge_around trim_endpoints Complex2.expm_diag
    (fun _ => Complex2.minus_i_pi_Z) (1, 0) Complex2.vector_e0 0.3 (Some [0.5]) 1 =
  trim_endpoints
    (mkOdeResult _ [1; 0.5; 0]
       (Complex2.vector_e0 ::
        map (fun t_i => Complex2.expm_diag ((t_i - 1) [*] Complex2.minus_i_pi_Z)
                          <@> Complex2.vector_e0) [0.5; 0]))
    (Some [0.5]).
Proof.
  apply (@magnus1_constant_generator_trajectory Complex2.ops complex2_laws
           merge_around trim_endpoints Complex2.expm_diag
           Complex2.minus_i_pi_Z (1, 0) Complex2.vector_e0 0.3 (Some [0.5]) 1
           [0.5; 0]).
  - intros a b. apply expm_diag_add.
  - reflexivity.
  - cbn [diff]. repeat constructor; try lra; apply Rabs_def1; lra.
Defined.

(** ** The Magnus rules on a constant generator *)

#[export] Instance complex2_algebra_laws : @MatrixAlgebraLaws Complex2.ops.
Proof.
  split; cbn [Mat madd msub mscale matmul Complex2.ops]; complex2_crush.
Qed.

Section MatrixAlgebra.

Context `{MatrixAlgebraLaws}.

Lemma mscale_mzero (c : R) : c [*] mzero = mzero.
Proof. unfold mzero. now rewrite mscale_assoc, Rmult_0_r. Qed.

Lemma madd_mzero_r (A : Mat) : A [+] mzero = A.
Proof. apply madd_0_r. Qed.

Lemma msub_diag (A : Mat) : A [-] A = mzero.
Proof.
  rewrite msub_madd. pose proof (mscale_plus 1 (-1) A) as E.
  rewrite mscale_1 in E. rewrite <- E.
  replace (1 + -1) with 0 by ring. apply mscale_0.
Qed.

Lemma matmul_mzero_r (A : Mat) : A [@] mzero = mzero.
Proof. unfold mzero. rewrite matmul_mscale_r. apply mscale_0. Qed.

Lemma matmul_mzero_l (A : Mat) : mzero [@] A = mzero.
Proof. unfold mzero. rewrite matmul_mscale_l. apply mscale_0. Qed.

Lemma mdiv_mzero (c : R) : mzero [/] c = mzero.
Proof. apply mscale_mzero. Qed.

Lemma matrix_commutator_mzero_r (A : Mat) : matrix_commutator A mzero = mzero.
Proof.
  unfold matrix_commutator. rewrite matmul_mzero_r, matmul_mzero_l.
  apply msub_diag.
Qed.

Lemma matrix_commutator_mzero_l (A : Mat) : matrix_commutator mzero A = mzero.
Proof.
  unfold matrix_commutator. rewrite matmul_mzero_r, matmul_mzero_l.
  apply msub_diag.
Qed.

(** A matrix commutes with itself. *)
Lemma matrix_commutator_diag (A : Mat) : matrix_commutator A A = mzero.
Proof. apply msub_diag. Qed.

Lemma second_difference_constant (G : Mat) : G [-] 2 [*] G [+] G = mzero.
Proof.
  rewrite msub_madd, mscale_assoc.
  pose proof (mscale_plus 1 (-1 * 2) G) as E1. rewrite mscale_1 in E1.
  rewrite <- E1.
  pose proof (mscale_plus (1 + -1 * 2) 1 G) as E2. rewrite mscale_1 in E2.
  rewrite <- E2.
  replace (1 + -1 * 2 + 1) with 0 by ring. apply mscale_0.
Qed.

Lemma mean_constant (h : R) (G : Mat) : h [*] (G [+] G) [/] 2 = h [*] G.
Proof.
  unfold mdiv.
  pose proof (mscale_plus 1 1 G) as E. rewrite mscale_1 in E. rewrite <- E.
  rewrite !mscale_assoc. f_equal. field.
Qed.

(** On a constant generator the propagators of the three orders are the
    same matrix, [expm_func(h G)]. *)
Lemma magnus_propagators_constant (expm_func : Mat -> Mat) (G : Mat) (t0 h : R) :
  magnus1_propagator expm_func (fun _ => G) t0 h = expm_func (h [*] G) /\
  magnus2_propagator expm_func (fun _ => G) t0 h = expm_func (h [*] G) /\
  magnus3_propagator expm_func (fun _ => G) t0 h = expm_func (h [*] G).
Proof.
  split; [reflexivity|split].
  - unfold magnus2_propagator. cbv zeta. f_equal.
    rewrite matrix_commutator_diag, mscale_mzero, madd_mzero_r.
    apply mean_constant.
  - unfold magnus3_propagator. cbv zeta. f_equal.
    rewrite msub_diag, second_difference_constant.
    repeat first [ rewrite mscale_mzero | rewrite madd_mzero_r
                 | rewrite mdiv_mzero | rewrite matrix_commutator_mzero_r
                 | rewrite matrix_commutator_mzero_l ].
    reflexivity.
Qed.

End MatrixAlgebra.

Lemma scan_ext {C X Y : Type} (f g : C -> X -> C * Y) (xs : list X) :
  (forall c x, f c x = g c x) -> forall init, scan f init xs = scan g init xs.
Proof.
  intros Hext. induction xs as [|x xs IH]; intros init; simpl; [reflexivity|].
  rewrite Hext. destruct (g init x) as [c out]. now rewrite IH.
Qed.

Section TemplateExtensionality.

Context `{ArrayOps}.
Variable merge_t_args : R * R -> option (list R) -> result (list R).
Variable trim_t_results : OdeResult -> option (list R) -> result OdeResult.

(** The JAX template and the parallel template see a step rule only
    through the values it returns. *)
Lemma fixed_step_solver_template_jax_ext {F F' : Type}
    (take_step : F -> R -> Arr -> R -> Arr)
    (take_step' : F' -> R -> Arr -> R -> Arr) (rhs_func : F) (rhs_func' : F')
    t_span t_dtype y0 max_dt t_eval :
  (forall t y h, take_step rhs_func t y h = take_step' rhs_func' t y h) ->
  fixed_step_solver_template_jax merge_t_args trim_t_results
    take_step rhs_func t_span t_dtype y0 max_dt t_eval =
  fixed_step_solver_template_jax merge_t_args trim_t_results
    take_step' rhs_func' t_span t_dtype y0 max_dt t_eval.
Proof.
  intros Hext. unfold fixed_step_solver_template_jax.
  destruct (get_fixed_step_sizes merge_t_args t_span t_eval max_dt)
    as [e|[[t_list h_list] n_steps_list]]; [reflexivity|].
  simpl bind. destruct (array_max n_steps_list) as [e|max_steps]; [reflexivity|].
  simpl bind. destruct t_dtype; [reflexivity|].
  simpl bind. do 4 f_equal. apply scan_ext.
  intros carry [[current_t h] n_steps]. unfold scan_interval_integrate.
  rewrite (scan_ext (scan_take_step take_step rhs_func h n_steps)
                    (scan_take_step take_step' rhs_func' h n_steps));
    [reflexivity|].
  intros [t y] step. unfold scan_take_step, cond.
  destruct (step <? n_steps)%Z; [now rewrite Hext|reflexivity].
Qed.

Lemma fixed_step_lmde_solver_parallel_template_jax_ext
    (take_step take_step' : (R -> Mat) -> R -> R -> Mat)
    (generator generator' : R -> Mat) t_span y0 max_dt t_eval :
  (forall t h, take_step generator t h = take_step' generator' t h) ->
  fixed_step_lmde_solver_parallel_template_jax merge_t_args trim_t_results
    take_step generator t_span y0 max_dt t_eval =
  fixed_step_lmde_solver_parallel_template_jax merge_t_args trim_t_results
    take_step' generator' t_span y0 max_dt t_eval.
Proof.
  intros Hext. unfold fixed_step_lmde_solver_parallel_template_jax.
  destruct (get_fixed_step_sizes merge_t_args t_span t_eval max_dt)
    as [e|[[t_list h_list] n_steps_list]]; [reflexivity|].
  simpl bind.
  destruct (time_information t_list h_list n_steps_list)
    as [e|[[all_times all_h] t_list_locations]]; [reflexivity|].
  simpl bind. unfold vmap_take_step.
  destruct (zip3 t_list h_list n_steps_list) as [|x xs]; [reflexivity|].
  simpl bind. do 3 f_equal. apply map_ext. intros [t h]. apply Hext.
Qed.

End TemplateExtensionality.

(** A constant generator makes the Magnus order irrelevant: at orders 2
    and 3 each of the three matrix-exponential solvers returns what it
    returns at order 1, the commutators and the differences of the samples
    of the generator being zero. *)
Theorem expm_solvers_constant_generator_order `{MatrixAlgebraLaws}
    merge_t_args trim_t_results (expm_func : Mat -> Mat) (G : Mat)
    t_span t_dtype y0 max_dt t_eval (magnus_order : Z) :
  magnus_order = 2%Z \/ magnus_order = 3%Z ->
  scipy_expm_solver merge_t_args trim_t_results expm_func
    (fun _ => G) t_span y0 max_dt t_eval magnus_order =
  scipy_expm_solver merge_t_args trim_t_results expm_func
    (fun _ => G) t_span y0 max_dt t_eval 1 /\
  jax_expm_solver merge_t_args trim_t_results expm_func
    (fun _ => G) t_span t_dtype y0 max_dt t_eval magnus_order =
  jax_expm_solver merge_t_args trim_t_results expm_func
    (fun _ => G) t_span t_dtype y0 max_dt t_eval 1 /\
  jax_expm_parallel_solver merge_t_args trim_t_results expm_func
    (fun _ => G) t_span y0 max_dt t_eval magnus_order =
  jax_expm_parallel_solver merge_t_args trim_t_results expm_func
    (fun _ => G) t_span y0 max_dt t_eval 1.
Proof.
  intros Hord.
  assert (Hp : exists propagator : propagator_fun,
             get_exponential_take_step magnus_order expm_func true =
               inr propagator /\
             get_exponential_take_step magnus_order expm_func false =
               inr (take_step_of propagator) /\
             forall t0 h, propagator (fun _ => G) t0 h =
                          magnus1_propagator expm_func (fun _ => G) t0 h).
  { destruct Hord as [-> | ->]; eexists; (split; [reflexivity|split; [reflexivity|]]);
      intros t0 h; destruct (magnus_propagators_constant expm_func G t0 h)
        as (E1 & E2 & E3); congruence. }
  destruct Hp as (propagator & Hprop & Hstep & Hsame).
  unfold scipy_expm_solver, jax_expm_solver, jax_expm_parallel_solver.
  rewrite Hprop, Hstep.
  change (get_exponential_take_step 1 expm_func false)
    with (@inr exn _ (take_step_of (magnus1_propagator expm_func))).
  change (get_exponential_take_step 1 expm_func true)
    with (@inr exn propagator_fun (magnus1_propagator expm_func)).
  simpl bind. repeat split.
  - apply fixed_step_solver_template_ext. intros t y h.
    unfold take_step_of. now rewrite Hsame.
  - apply fixed_step_solver_template_jax_ext. intros t y h.
    unfold take_step_of. now rewrite Hsame.
  - apply fixed_step_lmde_solver_parallel_template_jax_ext. exact Hsame.
Qed.

Lemma expm_solvers_constant_generator_order_witness :
  scipy_expm_solver merge_around trim_endpoints Complex2.expm_order1
    (fun _ => Complex2.minus_i_pi_Z) (0, 2) Complex2.vector_e0 0.3 (Some [0.5]) 3 =
  scipy_expm_solver merge_around trim_endpoints Complex2.expm_order1
    (fun _ => Complex2.minus_i_pi_Z) (0, 2) Complex2.vector_e0 0.3 (Some [0.5]) 1 /\
  jax_expm_solver merge_around trim_endpoints Complex2.expm_order1
    (fun _ => Complex2.minus_i_pi_Z) (0, 2) float_dtype Complex2.vector_e0 0.3
    (Some [0.5]) 3 =
  jax_expm_solver merge_around trim_endpoints Complex2.expm_order1
    (fun _ => Complex2.minus_i_pi_Z) (0, 2) float_dtype Complex2.vector_e0 0.3
    (Some [0.5]) 1 /\
  jax_expm_parallel_solver merge_around trim_endpoints Complex2.expm_order1
    (fun _ => Complex2.minus_i_pi_Z) (0, 2) Complex2.vector_e0 0.3 (Some [0.5]) 3 =
  jax_expm_parallel_solver merge_around trim_endpoints Complex2.expm_order1
    (fun _ => Complex2.minus_i_pi_Z) (0, 2) Complex2.vector_e0 0.3 (Some [0.5]) 1.
Proof.
  apply (@expm_solvers_constant_generator_order Complex2.ops complex2_algebra_laws).
  right; reflexivity.
Defined.

(** ** The real form of a complex system *)

Lemma zip_fst_snd {A B : Type} (l : list (A * B)) :
  zip (map fst l) (map snd l) = l.
Proof.
  induction l as [|[a b] l IH]; simpl; [reflexivity|now rewrite IH].
Qed.

Lemma c2r_length {X : Type} (z : list (X * X)) :
  length (c2r z) = (2 * length z)%nat.
Proof. unfold c2r, jnp_real, jnp_imag. rewrite length_app, !length_map. lia. Qed.

Lemma r2c_of_c2r {X : Type} (z : list (X * X)) : r2c (c2r z) = Some z.
Proof.
  unfold r2c. cbv zeta. rewrite c2r_length.
  replace (2 * length z / 2)%nat with (length z)
    by (rewrite Nat.mul_comm, Nat.div_mul; lia).
  unfold c2r, jnp_real, jnp_imag.
  assert (Hf : firstn (length z) (map fst z ++ map snd z) = map fst z).
  { rewrite <- (length_map fst z).
    now rewrite firstn_app, Nat.sub_diag, firstn_O, app_nil_r, firstn_all. }
  assert (Hs : skipn (length z) (map fst z ++ map snd z) = map snd z).
  { rewrite <- (length_map fst z).
    now rewrite skipn_app, Nat.sub_diag, skipn_O, skipn_all. }
  rewrite Hf, Hs. unfold add_1j_mul. rewrite !length_map, Nat.eqb_refl.
  now rewrite zip_fst_snd.
Qed.

(** [r2c] inverts [c2r]: a complex array, whatever its length, comes back
    from its real form. *)
Theorem r2c_c2r {X : Type} (z : list (X * X)) : r2c (c2r z) = Some z.
Proof. apply r2c_of_c2r. Qed.

(** [c2r] inverts [r2c] on the arrays of even length: a real array of
    even length is the real form of the complex array [r2c] makes of
    it. *)
Theorem c2r_r2c {X : Type} (arr : list X) :
  Nat.even (length arr) = true ->
  exists z, r2c arr = Some z /\ c2r z = arr.
Proof.
  intros Hev. apply Nat.even_spec in Hev. destruct Hev as [k Hk].
  assert (Hsize : (length arr / 2)%nat = k)
    by (rewrite Hk, Nat.mul_comm, Nat.div_mul; lia).
  exists (zip (firstn k arr) (skipn k arr)). split.
  - unfold r2c. cbv zeta. rewrite Hsize. unfold add_1j_mul.
    rewrite length_firstn, length_skipn.
    replace (Nat.min k (length arr) =? length arr - k)%nat with true
      by (symmetry; apply Nat.eqb_eq; lia).
    reflexivity.
  - unfold c2r, jnp_real, jnp_imag.
    assert (Hz : forall (a b : list X), length a = length b ->
                   map fst (zip a b) = a /\ map snd (zip a b) = b).
    { induction a as [|x a IH]; intros [|y b] Hl; simpl in *;
        try discriminate; [split; reflexivity|].
      destruct (IH b) as [E1 E2]; [lia|]. now rewrite E1, E2. }
    destruct (Hz (firstn k arr) (skipn k arr)) as [E1 E2].
    { rewrite length_firstn, length_skipn. lia. }
    rewrite E1, E2. apply firstn_skipn.
Qed.

Lemma c2r_r2c_witness :
  exists z, r2c [1; 2; 3; 4] = Some z /\ c2r z = [1; 2; 3; 4].
Proof. apply (c2r_r2c [1; 2; 3; 4]). reflexivity. Defined.

(** [r2c] on an array of odd length: a single entry gives the empty
    array, three entries give two values that share the first entry as
    their real part, and five entries or more raise; in no case is the
    array the real form of what [r2c] returns. *)
Theorem r2c_odd_length {X : Type} (arr : list X) (k : nat) :
  length arr = (2 * k + 1)%nat ->
  match arr with
  | [_] => r2c arr = Some []
  | [a; b; c] => r2c arr = Some [(a, b); (a, c)]
  | _ => r2c arr = None
  end /\
  forall z, r2c arr = Some z -> c2r z <> arr.
Proof.
  intros Hlen. split.
  2: { intros z _ Heq.
       assert (Hl : length (c2r z) = length arr) by now rewrite Heq.
       rewrite c2r_length in Hl. lia. }
  destruct arr as [|a [|b [|c [|d [|e rest]]]]]; simpl in Hlen; try lia;
    try reflexivity.
  unfold r2c. cbv zeta.
  assert (Hk : (2 <= k)%nat) by lia.
  assert (Hsize : (length (a :: b :: c :: d :: e :: rest) / 2)%nat = k).
  { change (length (a :: b :: c :: d :: e :: rest))
      with (S (S (S (S (S (length rest)))))).
    replace (S (S (S (S (S (length rest)))))) with (1 + k * 2)%nat by lia.
    rewrite Nat.div_add by lia. reflexivity. }
  rewrite Hsize.
  assert (Hf : length (firstn k (a :: b :: c :: d :: e :: rest)) = k)
    by (rewrite length_firstn; cbn [length]; lia).
  assert (Hs : length (skipn k (a :: b :: c :: d :: e :: rest)) = S k)
    by (rewrite length_skipn; cbn [length]; lia).
  unfold add_1j_mul. rewrite Hf, Hs.
  replace (k =? S k)%nat with false by (symmetry; apply Nat.eqb_neq; lia).
  destruct (firstn k (a :: b :: c :: d :: e :: rest)) as [|x [|x' l]];
    simpl in Hf; try lia.
  destruct (skipn k (a :: b :: c :: d :: e :: rest)) as [|y [|y' l']];
    simpl in Hs; try lia.
  reflexivity.
Qed.

Lemma r2c_odd_length_witness :
  r2c [1; 2; 3] = Some [(1, 2); (1, 3)] /\
  forall z, r2c [1; 2; 3] = Some z -> c2r z <> [1; 2; 3].
Proof. apply (r2c_odd_length [1; 2; 3] 1). reflexivity. Defined.

(** [real_rhs] is the right-hand side in real coordinates: on the real
    form of a complex state it returns, without raising, the real form of
    what the complex right-hand side returns on that state. *)
Theorem real_rhs_c2r {X : Type} (rhs : R -> list (X * X) -> list (X * X))
    (t : R) (z : list (X * X)) :
  real_rhs rhs t (c2r z) = Some (c2r (rhs t z)).
Proof. unfold real_rhs. now rewrite r2c_of_c2r. Qed.
